(** * Servo motor device class (motors/servo_motor_class.c)

    A shallow embedding of the servo-motor class of the LEGO MINDSTORMS EV3
    drivers: the linear scaling helper, the position/command/polarity logic
    and the sysfs store/show callbacks that validate and apply user requests.

    C integers are mathematical integers ([Z]) with every conversion and
    wrap-around written out.  [int] and [unsigned] are 32 bits wide; the width
    of [long] depends on the kernel's data model (32 bits on the 32-bit ARM
    targets the driver was written for, 64 bits on LP64 kernels), so it is a
    parameter of the arithmetic.  The kernel is built with wrapping signed
    arithmetic (-fno-strict-overflow), which is what the model follows. *)

From Stdlib Require Import ZArith Lia List Bool String Ascii DecimalString.
Import ListNotations.

Local Open Scope Z_scope.

(** ** Machine integers *)

Module CInt.

(** Reduction modulo [2^w]: conversion to an unsigned type of [w] bits. *)
Definition wrap_unsigned (w x : Z) : Z := x mod 2 ^ w.

(** Two's complement reading: conversion to a signed type of [w] bits. *)
Definition wrap_signed (w x : Z) : Z :=
  (x + 2 ^ (w - 1)) mod 2 ^ w - 2 ^ (w - 1).

Definition to_unsigned : Z -> Z := wrap_unsigned 32.
Definition to_int : Z -> Z := wrap_signed 32.

Definition INT_MIN : Z := - 2 ^ 31.
Definition INT_MAX : Z := 2 ^ 31 - 1.

Definition int_range (x : Z) : Prop := INT_MIN <= x <= INT_MAX.
Definition unsigned_range (x : Z) : Prop := 0 <= x < 2 ^ 32.

(** The two data models of a Linux kernel: they differ in [long]. *)
Inductive data_model : Type := ILP32 | LP64.

Definition long_bits (dm : data_model) : Z :=
  match dm with ILP32 => 32 | LP64 => 64 end.

Definition to_long (dm : data_model) : Z -> Z := wrap_signed (long_bits dm).

(** [scaled op= u] for [long scaled] and [unsigned u].  By the usual
    arithmetic conversions a 32-bit [long] cannot hold every [unsigned], so
    both operands become [unsigned long] and the operation is unsigned; a
    64-bit [long] can, so [u] is widened and the operation is signed.  The
    result is stored back into the [long]. *)
Definition long_op_unsigned (dm : data_model) (op : Z -> Z -> Z)
           (scaled u : Z) : Z :=
  match dm with
  | ILP32 => to_long ILP32 (wrap_unsigned 32 (op (wrap_unsigned 32 scaled) u))
  | LP64 => to_long LP64 (op scaled u)
  end.

(** The products a [long] accumulator takes without wrapping, given
    [unsigned] factors: the operation is unsigned on 32 bits, signed on 64. *)
Definition product_limit (dm : data_model) : Z :=
  match dm with ILP32 => 2 ^ 32 | LP64 => 2 ^ 63 end.

End CInt.
Import CInt.

(** ** The scaling helper *)

(** [servo_motor_class_scale]: every parameter is [unsigned], so the
    arguments are converted on entry; the accumulator is a [long]; the result
    is converted to [int].  Division by zero has no result. *)
Definition servo_motor_class_scale (dm : data_model)
           (in_min in_max out_min out_max value : Z) : option Z :=
  let in_min := to_unsigned in_min in
  let in_max := to_unsigned in_max in
  let out_min := to_unsigned out_min in
  let out_max := to_unsigned out_max in
  let value := to_unsigned value in
  let scaled := to_long dm (to_unsigned (value - in_min)) in
  let scaled := long_op_unsigned dm Z.mul scaled (to_unsigned (out_max - out_min)) in
  if to_unsigned (in_max - in_min) =? 0 then None
  else
    let scaled := long_op_unsigned dm Z.quot scaled (to_unsigned (in_max - in_min)) in
    let scaled := long_op_unsigned dm Z.add scaled out_min in
    Some (to_int scaled).

Arguments servo_motor_class_scale : simpl never.

(** ** Data model

    The header servo_motor_class.h, which declares the enumerations, the
    callback table and the device structure, is not among the sources; the
    declarations below have the members the C file uses, with the types it
    uses them at. *)

(** Modelled from the spec: [enum servo_motor_command] of the missing
    servo_motor_class.h, the Command enum {Run, Float} of the data model. *)
Inductive servo_motor_command : Type :=
| SERVO_MOTOR_COMMAND_RUN
| SERVO_MOTOR_COMMAND_FLOAT.

(** Modelled from the spec: [enum servo_motor_polarity] of the missing
    servo_motor_class.h, the Polarity enum {Normal, Inverted}. *)
Inductive servo_motor_polarity : Type :=
| SERVO_MOTOR_POLARITY_NORMAL
| SERVO_MOTOR_POLARITY_INVERTED.

Definition command_eqb (a b : servo_motor_command) : bool :=
  match a, b with
  | SERVO_MOTOR_COMMAND_RUN, SERVO_MOTOR_COMMAND_RUN => true
  | SERVO_MOTOR_COMMAND_FLOAT, SERVO_MOTOR_COMMAND_FLOAT => true
  | _, _ => false
  end.

Definition polarity_eqb (a b : servo_motor_polarity) : bool :=
  match a, b with
  | SERVO_MOTOR_POLARITY_NORMAL, SERVO_MOTOR_POLARITY_NORMAL => true
  | SERVO_MOTOR_POLARITY_INVERTED, SERVO_MOTOR_POLARITY_INVERTED => true
  | _, _ => false
  end.

Definition servo_motor_command_values (c : servo_motor_command) : string :=
  match c with
  | SERVO_MOTOR_COMMAND_RUN => "run"
  | SERVO_MOTOR_COMMAND_FLOAT => "float"
  end.

Definition servo_motor_polarity_values (p : servo_motor_polarity) : string :=
  match p with
  | SERVO_MOTOR_POLARITY_NORMAL => "normal"
  | SERVO_MOTOR_POLARITY_INVERTED => "inverted"
  end.

(** The indices a [for] loop over an enumeration runs through, in the order
    of the value tables. *)
Definition all_commands : list servo_motor_command :=
  [SERVO_MOTOR_COMMAND_RUN; SERVO_MOTOR_COMMAND_FLOAT].

Definition all_polarities : list servo_motor_polarity :=
  [SERVO_MOTOR_POLARITY_NORMAL; SERVO_MOTOR_POLARITY_INVERTED].

Definition EINVAL : Z := 22.
Definition ENOSYS : Z := 38.

(** Modelled from the spec: [struct servo_motor_ops] of the missing
    servo_motor_class.h, the HardwareDriver capability: get/set position in
    pulse units and the optional get/set rate (a null pointer when the driver
    has none).  A callback runs on the driver's private data
    ([void *context]), may change it, and returns an [int]. *)
Record servo_motor_ops {ctx : Type} : Type := {
  get_position : ctx -> Z * ctx;
  set_position : ctx -> Z -> Z * ctx;
  get_rate : option (ctx -> Z * ctx);
  set_rate : option (ctx -> Z -> Z * ctx)
}.
Arguments servo_motor_ops : clear implicits.

(** Modelled from the spec: [struct servo_motor_device] of the missing
    servo_motor_class.h, the ServoMotor aggregate: identity, callbacks and
    driver data, the three pulse bounds ([unsigned], printed with %u),
    command, polarity and position ([int]). *)
Record servo_motor_device {ctx : Type} : Type := {
  name : string;
  port_name : string;
  ops : servo_motor_ops ctx;
  context : ctx;
  min_pulse_ms : Z;
  mid_pulse_ms : Z;
  max_pulse_ms : Z;
  command : servo_motor_command;
  polarity : servo_motor_polarity;
  position : Z
}.
Arguments servo_motor_device : clear implicits.

(** A call seen by the driver, with the argument it was given. *)
Inductive ops_call : Type :=
| CallGetPosition
| CallSetPosition (value : Z)
| CallGetRate
| CallSetRate (value : Z).

(** The state a callback runs in: the device and the calls made so far to
    its driver (the latter only observes, nothing reads it). *)
Record machine {ctx : Type} : Type := {
  motor : servo_motor_device ctx;
  calls : list ops_call
}.
Arguments machine : clear implicits.

Section Fields.
Context {ctx : Type}.
Implicit Type m : servo_motor_device ctx.

Definition with_context (c : ctx) m : servo_motor_device ctx :=
  {| name := name m; port_name := port_name m; ops := ops m; context := c;
     min_pulse_ms := min_pulse_ms m; mid_pulse_ms := mid_pulse_ms m;
     max_pulse_ms := max_pulse_ms m; command := command m;
     polarity := polarity m; position := position m |}.

Definition with_min_pulse_ms (v : Z) m : servo_motor_device ctx :=
  {| name := name m; port_name := port_name m; ops := ops m;
     context := context m;
     min_pulse_ms := v; mid_pulse_ms := mid_pulse_ms m;
     max_pulse_ms := max_pulse_ms m; command := command m;
     polarity := polarity m; position := position m |}.

Definition with_mid_pulse_ms (v : Z) m : servo_motor_device ctx :=
  {| name := name m; port_name := port_name m; ops := ops m;
     context := context m;
     min_pulse_ms := min_pulse_ms m; mid_pulse_ms := v;
     max_pulse_ms := max_pulse_ms m; command := command m;
     polarity := polarity m; position := position m |}.

Definition with_max_pulse_ms (v : Z) m : servo_motor_device ctx :=
  {| name := name m; port_name := port_name m; ops := ops m;
     context := context m;
     min_pulse_ms := min_pulse_ms m; mid_pulse_ms := mid_pulse_ms m;
     max_pulse_ms := v; command := command m;
     polarity := polarity m; position := position m |}.

Definition with_command (v : servo_motor_command) m : servo_motor_device ctx :=
  {| name := name m; port_name := port_name m; ops := ops m;
     context := context m;
     min_pulse_ms := min_pulse_ms m; mid_pulse_ms := mid_pulse_ms m;
     max_pulse_ms := max_pulse_ms m; command := v;
     polarity := polarity m; position := position m |}.

Definition with_polarity (v : servo_motor_polarity) m : servo_motor_device ctx :=
  {| name := name m; port_name := port_name m; ops := ops m;
     context := context m;
     min_pulse_ms := min_pulse_ms m; mid_pulse_ms := mid_pulse_ms m;
     max_pulse_ms := max_pulse_ms m; command := command m;
     polarity := v; position := position m |}.

Definition with_position (v : Z) m : servo_motor_device ctx :=
  {| name := name m; port_name := port_name m; ops := ops m;
     context := context m;
     min_pulse_ms := min_pulse_ms m; mid_pulse_ms := mid_pulse_ms m;
     max_pulse_ms := max_pulse_ms m; command := command m;
     polarity := polarity m; position := v |}.

End Fields.

(** ** Kernel computations

    A callback is a function of the machine state; it has no result when it
    divides by zero. *)

Definition kernel (ctx A : Type) : Type := machine ctx -> option (A * machine ctx).

Section Monad.
Context {ctx : Type}.

Definition ret {A : Type} (a : A) : kernel ctx A := fun s => Some (a, s).

Definition bind {A B : Type} (c : kernel ctx A) (k : A -> kernel ctx B)
  : kernel ctx B :=
  fun s => match c s with
           | Some (a, s') => k a s'
           | None => None
           end.

Definition trap {A : Type} : kernel ctx A := fun _ => None.

Definition lift {A : Type} (o : option A) : kernel ctx A :=
  match o with Some a => ret a | None => trap end.

(** [motor->field] *)
Definition load {A : Type} (field : servo_motor_device ctx -> A) : kernel ctx A :=
  fun s => Some (field (motor s), s).

(** [motor->field = v] *)
Definition store (upd : servo_motor_device ctx -> servo_motor_device ctx)
  : kernel ctx unit :=
  fun s => Some (tt, {| motor := upd (motor s); calls := calls s |}).

(** [motor->ops.get_position(motor->context)] *)
Definition ops_get_position : kernel ctx Z :=
  fun s =>
    let m := motor s in
    let '(r, c) := get_position (ops m) (context m) in
    Some (to_int r,
          {| motor := with_context c m;
             calls := calls s ++ [CallGetPosition] |}).

(** [motor->ops.set_position(motor->context, value)] *)
Definition ops_set_position (value : Z) : kernel ctx Z :=
  fun s =>
    let m := motor s in
    let '(r, c) := set_position (ops m) (context m) value in
    Some (to_int r,
          {| motor := with_context c m;
             calls := calls s ++ [CallSetPosition value] |}).

(** [get_rate(motor->context)] and [set_rate(motor->context, value)] for a
    driver that has the callback. *)
Definition ops_get_rate (callback : ctx -> Z * ctx) : kernel ctx Z :=
  fun s =>
    let m := motor s in
    let '(r, c) := callback (context m) in
    Some (to_int r,
          {| motor := with_context c m; calls := calls s ++ [CallGetRate] |}).

Definition ops_set_rate (callback : ctx -> Z -> Z * ctx) (value : Z)
  : kernel ctx Z :=
  fun s =>
    let m := motor s in
    let '(r, c) := callback (context m) value in
    Some (to_int r,
          {| motor := with_context c m;
             calls := calls s ++ [CallSetRate value] |}).

End Monad.

Declare Scope kernel_scope.
Delimit Scope kernel_scope with kernel.
Notation "x <- c ;; k" := (bind c (fun x => k))
  (at level 61, c at next level, right associativity) : kernel_scope.
Notation "c ;; k" := (bind c (fun _ => k))
  (at level 61, right associativity) : kernel_scope.
Local Open Scope kernel_scope.

(** [sprintf(buf, "%d\n", v)]: the text written to [buf]; the call returns
    its length. *)
Definition newline : string := String (ascii_of_nat 10) EmptyString.

Definition sprintf_d (v : Z) : string :=
  (NilZero.string_of_int (Z.to_int v) ++ newline)%string.

Definition strlen (s : string) : Z := Z.of_nat (String.length s).

(** ** The class functions and the sysfs callbacks *)

Section ServoMotorClass.

(** Data model of the kernel the class is compiled for. *)
Variable dm : data_model.

(** Type of the driver's private data. *)
Variable ctx : Type.

(** Kernel helpers, not part of the class: [sscanf(buf, "%d", &value)] and
    [sscanf(buf, "%ud", &value)] give the converted number when exactly one
    conversion succeeded; [sysfs_streq] compares a written buffer with a
    keyword. *)
Variable sscanf_d : string -> option Z.
Variable sscanf_u : string -> option Z.
Variable sysfs_streq : string -> string -> bool.

(** [servo_motor_class_get_command]: a negative driver result is returned
    as it is, otherwise the command the raw position stands for. *)
Definition servo_motor_class_get_command : kernel ctx (Z + servo_motor_command) :=
  r <- ops_get_position ;;
  if r <? 0 then ret (inl r)
  else ret (inr (if negb (r =? 0) then SERVO_MOTOR_COMMAND_RUN
                 else SERVO_MOTOR_COMMAND_FLOAT)).

Definition servo_motor_class_set_position
           (new_position : Z) (new_polarity : servo_motor_polarity) : kernel ctx Z :=
  store (with_polarity new_polarity) ;;
  store (with_position new_position) ;;
  cmd <- load command ;;
  if command_eqb cmd SERVO_MOTOR_COMMAND_RUN then
    let new_position :=
      if polarity_eqb new_polarity SERVO_MOTOR_POLARITY_INVERTED
      then to_int (- new_position) else new_position in
    scaled_position <-
      (if new_position >? 0 then
         mid <- load mid_pulse_ms ;;
         max <- load max_pulse_ms ;;
         lift (servo_motor_class_scale dm 0 100 mid max new_position)
       else
         min <- load min_pulse_ms ;;
         mid <- load mid_pulse_ms ;;
         lift (servo_motor_class_scale dm (-100) 0 min mid new_position)) ;;
    ops_set_position scaled_position
  else ret 0.

Definition min_pulse_ms_store (buf : string) (count : Z) : kernel ctx Z :=
  match sscanf_u buf with
  | None => ret (- EINVAL)
  | Some value =>
    let value := to_unsigned value in
    if (value >? 700) || (value <? 300) then ret (- EINVAL)
    else store (with_min_pulse_ms value) ;; ret count
  end.

Definition mid_pulse_ms_store (buf : string) (count : Z) : kernel ctx Z :=
  match sscanf_u buf with
  | None => ret (- EINVAL)
  | Some value =>
    let value := to_unsigned value in
    if (value >? 1700) || (value <? 1300) then ret (- EINVAL)
    else store (with_mid_pulse_ms value) ;; ret count
  end.

Definition max_pulse_ms_store (buf : string) (count : Z) : kernel ctx Z :=
  match sscanf_u buf with
  | None => ret (- EINVAL)
  | Some value =>
    let value := to_unsigned value in
    if (value >? 2700) || (value <? 2300) then ret (- EINVAL)
    else store (with_max_pulse_ms value) ;; ret count
  end.

(** The body of the loop of [command_store], from index [i] on. *)
Fixpoint command_store_from (todo : list servo_motor_command)
         (buf : string) (size : Z) : kernel ctx Z :=
  match todo with
  | [] => ret (- EINVAL)
  | i :: rest =>
    if negb (sysfs_streq buf (servo_motor_command_values i))
    then command_store_from rest buf size
    else
      cmd <- load command ;;
      if command_eqb cmd i then ret size
      else
        store (with_command i) ;;
        cmd <- load command ;;
        err <- (if command_eqb cmd SERVO_MOTOR_COMMAND_RUN then
                  pos <- load position ;;
                  pol <- load polarity ;;
                  servo_motor_class_set_position pos pol
                else ops_set_position 0) ;;
        if negb (err =? 0) then ret err else ret size
  end.

Definition command_store (buf : string) (size : Z) : kernel ctx Z :=
  command_store_from all_commands buf size.

Fixpoint polarity_store_from (todo : list servo_motor_polarity)
         (buf : string) (size : Z) : kernel ctx Z :=
  match todo with
  | [] => ret (- EINVAL)
  | i :: rest =>
    if negb (sysfs_streq buf (servo_motor_polarity_values i))
    then polarity_store_from rest buf size
    else
      pol <- load polarity ;;
      if negb (polarity_eqb pol i) then
        pos <- load position ;;
        err <- servo_motor_class_set_position pos i ;;
        if negb (err =? 0) then ret err else ret size
      else ret size
  end.

Definition polarity_store (buf : string) (size : Z) : kernel ctx Z :=
  polarity_store_from all_polarities buf size.

(** [position_show]: the result is the returned [ssize_t] and the contents
    of [buf] afterwards.  [ret < motor->mid_pulse_ms] compares an [int]
    with an [unsigned], hence as unsigned numbers. *)
Definition position_show (buf : string) : kernel ctx (Z * string) :=
  r <- ops_get_position ;;
  if r <? 0 then ret (r, buf)
  else
    r <- (if r =? 0 then load position
          else
            mid <- load mid_pulse_ms ;;
            if to_unsigned r <? mid then
              min <- load min_pulse_ms ;;
              lift (servo_motor_class_scale dm min mid (-100) 0 r)
            else
              max <- load max_pulse_ms ;;
              lift (servo_motor_class_scale dm mid max 0 100 r)) ;;
    ret (strlen (sprintf_d r), sprintf_d r).

Definition position_store (buf : string) (count : Z) : kernel ctx Z :=
  match sscanf_d buf with
  | None => ret (- EINVAL)
  | Some value =>
    let value := to_int value in
    if (value >? 100) || (value <? -100) then ret (- EINVAL)
    else
      pos <- load position ;;
      if negb (pos =? value) then
        pol <- load polarity ;;
        err <- servo_motor_class_set_position value pol ;;
        if negb (err =? 0) then ret err else ret count
      else ret count
  end.

Definition rate_show (buf : string) : kernel ctx (Z * string) :=
  callback <- load (fun m => get_rate (ops m)) ;;
  match callback with
  | None => ret (- ENOSYS, buf)
  | Some callback =>
    r <- ops_get_rate callback ;;
    if r <? 0 then ret (r, buf)
    else ret (strlen (sprintf_d r), sprintf_d r)
  end.

Definition rate_store (buf : string) (count : Z) : kernel ctx Z :=
  callback <- load (fun m => set_rate (ops m)) ;;
  match callback with
  | None => ret (- ENOSYS)
  | Some callback =>
    match sscanf_u buf with
    | None => ret (- EINVAL)
    | Some value =>
      err <- ops_set_rate callback (to_unsigned value) ;;
      if err <? 0 then ret err else ret count
    end
  end.

End ServoMotorClass.

Arguments rate_show {ctx}.
Arguments rate_store {ctx}.
Arguments servo_motor_class_get_command {ctx}.
Arguments servo_motor_class_set_position dm {ctx}.
Arguments min_pulse_ms_store {ctx}.
Arguments mid_pulse_ms_store {ctx}.
Arguments max_pulse_ms_store {ctx}.
Arguments command_store_from dm {ctx}.
Arguments command_store dm {ctx}.
Arguments polarity_store_from dm {ctx}.
Arguments polarity_store dm {ctx}.
Arguments position_show dm {ctx}.
Arguments position_store dm {ctx}.

(** ** The operations in the specification's words

    What the driver is asked and answers in a state, and the reading rule of
    the position attribute as the specification phrases it; compared with
    [position_show] below. *)

Section Reading.

Context {ctx : Type}.

(** The raw pulse the driver answers with in state [s]. *)
Definition driver_reading (s : machine ctx) : Z :=
  to_int (fst (get_position (ops (motor s)) (context (motor s)))).

(** The state once the driver has been asked for its position. *)
Definition after_get_position (s : machine ctx) : machine ctx :=
  {| motor := with_context
                (snd (get_position (ops (motor s)) (context (motor s))))
                (motor s);
     calls := calls s ++ [CallGetPosition] |}.

(** The driver's answer to [set_position(pulse)] in state [s], and the state
    afterwards. *)
Definition driver_answer (s : machine ctx) (pulse : Z) : Z :=
  to_int (fst (set_position (ops (motor s)) (context (motor s)) pulse)).

Definition after_set_position (s : machine ctx) (pulse : Z) : machine ctx :=
  {| motor := with_context
                (snd (set_position (ops (motor s)) (context (motor s)) pulse))
                (motor s);
     calls := calls s ++ [CallSetPosition pulse] |}.

(** The state with the requested percentage and polarity recorded. *)
Definition recorded (s : machine ctx) (percent : Z)
           (pol : servo_motor_polarity) : machine ctx :=
  {| motor := with_position percent (with_polarity pol (motor s));
     calls := calls s |}.

(** The state with the command field set. *)
Definition commanded (s : machine ctx) (cmd : servo_motor_command)
  : machine ctx :=
  {| motor := with_command cmd (motor s); calls := calls s |}.

(** What a store callback returns after a driver call that answered [err]:
    a non-zero answer is handed back, otherwise the size consumed. *)
Definition status (err size : Z) : Z := if negb (err =? 0) then err else size.

(** What a state shares with another apart from the three pulse bounds: the
    calls made, the driver's data and callbacks, and every other field. *)
Definition same_but_pulses (s s' : machine ctx) : Prop :=
  calls s' = calls s /\
  context (motor s') = context (motor s) /\
  ops (motor s') = ops (motor s) /\
  name (motor s') = name (motor s) /\
  port_name (motor s') = port_name (motor s) /\
  command (motor s') = command (motor s) /\
  polarity (motor s') = polarity (motor s) /\
  position (motor s') = position (motor s).

Inductive reading : Type :=
| ReadError (code : Z)
| Reported (percent : Z).

Definition get_position_spec (dm : data_model) (m : servo_motor_device ctx)
           (raw : Z) : option reading :=
  if raw <? 0 then Some (ReadError raw)
  else if raw =? 0 then Some (Reported (position m))
  else if raw <? mid_pulse_ms m then
    option_map Reported
      (servo_motor_class_scale dm (min_pulse_ms m) (mid_pulse_ms m) (-100) 0 raw)
  else
    option_map Reported
      (servo_motor_class_scale dm (mid_pulse_ms m) (max_pulse_ms m) 0 100 raw).

(** The pulse of a percentage, in the specification's words. *)
Definition apply_position_pulse (dm : data_model) (m : servo_motor_device ctx)
           (percent : Z) (pol : servo_motor_polarity) : option Z :=
  let p := match pol with
           | SERVO_MOTOR_POLARITY_INVERTED => to_int (- percent)
           | SERVO_MOTOR_POLARITY_NORMAL => percent
           end in
  if 0 <? p
  then servo_motor_class_scale dm 0 100 (mid_pulse_ms m) (max_pulse_ms m) p
  else servo_motor_class_scale dm (-100) 0 (min_pulse_ms m) (mid_pulse_ms m) p.

(** The pulse configuration [register_servo_motor] installs. *)
Definition default_pulses (m : servo_motor_device ctx) : Prop :=
  min_pulse_ms m = 600 /\ mid_pulse_ms m = 1500 /\ max_pulse_ms m = 2400.

End Reading.

(** ** A concrete driver and concrete kernel helpers

    Used to run the callbacks on examples: a PWM channel that remembers the
    pulse it outputs and answers every request with its fault code when it
    has one, a decimal reader and a keyword comparison that ignores one
    trailing newline. *)

Module Demo.

Record pwm : Type := { pulse : Z; fault : Z }.

Definition pwm_get_position (c : pwm) : Z * pwm :=
  (if fault c =? 0 then pulse c else fault c, c).

Definition pwm_set_position (c : pwm) (value : Z) : Z * pwm :=
  if fault c =? 0 then (0, {| pulse := value; fault := 0 |}) else (fault c, c).

Definition pwm_ops : servo_motor_ops pwm :=
  {| get_position := pwm_get_position;
     set_position := pwm_set_position;
     get_rate := None;
     set_rate := None |}.

Definition is_digit (ch : ascii) : bool :=
  let n := Z.of_nat (nat_of_ascii ch) in (48 <=? n) && (n <=? 57).

Definition digit_value (ch : ascii) : Z := Z.of_nat (nat_of_ascii ch) - 48.

Fixpoint read_digits (s : string) (acc : Z) (seen : bool) : option Z :=
  match s with
  | String ch rest =>
    if is_digit ch then read_digits rest (10 * acc + digit_value ch) true
    else if seen then Some acc else None
  | EmptyString => if seen then Some acc else None
  end.

Definition read_decimal (s : string) : option Z :=
  match s with
  | String "-"%char rest => option_map Z.opp (read_digits rest 0 false)
  | _ => read_digits s 0 false
  end.

Definition read_unsigned (s : string) : option Z := read_digits s 0 false.

Definition chomp (s : string) : string :=
  let n := String.length s in
  if String.eqb (substring (n - 1) 1 s) newline then substring 0 (n - 1) s else s.

Definition streq (a b : string) : bool := String.eqb (chomp a) (chomp b).

(** A registered motor on a PWM channel: default pulses, given command,
    polarity and position. *)
Definition servo (cmd : servo_motor_command) (pol : servo_motor_polarity)
           (percent : Z) (c : pwm) : machine pwm :=
  {| motor := {| name := "pwm-servo"; port_name := "out1"; ops := pwm_ops;
                 context := c;
                 min_pulse_ms := 600; mid_pulse_ms := 1500; max_pulse_ms := 2400;
                 command := cmd; polarity := pol; position := percent |};
     calls := [] |}.

Definition normal : servo_motor_polarity := SERVO_MOTOR_POLARITY_NORMAL.
Definition inverted : servo_motor_polarity := SERVO_MOTOR_POLARITY_INVERTED.

Definition running : servo_motor_polarity -> Z -> pwm -> machine pwm :=
  servo SERVO_MOTOR_COMMAND_RUN.

Definition floating : servo_motor_polarity -> Z -> pwm -> machine pwm :=
  servo SERVO_MOTOR_COMMAND_FLOAT.

Definition idle : pwm := {| pulse := 0; fault := 0 |}.

(** A channel that answers every request with -EIO. *)
Definition broken : pwm := {| pulse := 1500; fault := -5 |}.

(** A channel that reports the given pulse. *)
Definition driven (raw : Z) : pwm := {| pulse := raw; fault := 0 |}.

(** What the examples look at in a result: the value returned, the stored
    position and the calls made to the driver. *)
Definition observed {A : Type} (r : option (A * machine pwm))
  : option (A * Z * list ops_call) :=
  option_map (fun x => (fst x, position (motor (snd x)), calls (snd x))) r.

End Demo.

(** ** The remaining callbacks: attribute reads, uevent, registration *)

(** [sprintf(buf, "%s\n", text)] and [sprintf(buf, "%u\n", v)]: the text
    written. *)
Definition sprintf_s (text : string) : string := (text ++ newline)%string.

Definition sprintf_u (v : Z) : string := sprintf_d (to_unsigned v).

(** The kernel's [snprintf(buf, size, ...)] of a given text: at most
    [size - 1] characters are stored (nothing for a zero size) and the length
    the whole text would take is returned. *)
Definition snprintf (buf : string) (size : Z) (text : string) : Z * string :=
  (strlen text,
   if size <=? 0 then buf else substring 0 (Z.to_nat (size - 1)) text).

(** What [register_servo_motor] leaves behind: the value returned, the
    device (none for a null pointer), the device name when one was set, and
    the class-wide counter [servo_motor_class_id]. *)
Record registration {ctx : Type} : Type := {
  reg_result : Z;
  reg_servo : option (machine ctx);
  reg_dev_name : option string;
  reg_class_id : Z
}.
Arguments registration : clear implicits.

(** A request on the attributes of a motor. *)
Inductive request : Type :=
| ReadName (buf : string)
| ReadPortName (buf : string)
| ReadMinPulse (buf : string)
| WriteMinPulse (buf : string) (count : Z)
| ReadMidPulse (buf : string)
| WriteMidPulse (buf : string) (count : Z)
| ReadMaxPulse (buf : string)
| WriteMaxPulse (buf : string) (count : Z)
| ReadCommand (buf : string)
| WriteCommand (buf : string) (size : Z)
| ReadPolarity (buf : string)
| WritePolarity (buf : string) (size : Z)
| ReadPosition (buf : string)
| WritePosition (buf : string) (count : Z)
| ReadRate (buf : string)
| WriteRate (buf : string) (count : Z).

Section ServoMotorSysfs.

Variable dm : data_model.
Variable ctx : Type.
Variable sscanf_d : string -> option Z.
Variable sscanf_u : string -> option Z.
Variable sysfs_streq : string -> string -> bool.

(** [SERVO_MOTOR_NAME_SIZE], a constant of the missing header. *)
Variable SERVO_MOTOR_NAME_SIZE : Z.

(** The kernel's uevent environment with [add_uevent_var] on an already
    formatted variable, and [device_register] answering for a device name. *)
Variable uevent_env : Type.
Variable add_uevent_var : uevent_env -> string -> Z * uevent_env.
Variable device_register : string -> Z.

Definition name_show (buf : string) : kernel ctx (Z * string) :=
  text <- load name ;;
  ret (snprintf buf SERVO_MOTOR_NAME_SIZE (sprintf_s text)).

Definition port_name_show (buf : string) : kernel ctx (Z * string) :=
  text <- load port_name ;;
  ret (snprintf buf SERVO_MOTOR_NAME_SIZE (sprintf_s text)).

Definition min_pulse_ms_show (buf : string) : kernel ctx (Z * string) :=
  v <- load min_pulse_ms ;;
  ret (strlen (sprintf_u v), sprintf_u v).

Definition mid_pulse_ms_show (buf : string) : kernel ctx (Z * string) :=
  v <- load mid_pulse_ms ;;
  ret (strlen (sprintf_u v), sprintf_u v).

Definition max_pulse_ms_show (buf : string) : kernel ctx (Z * string) :=
  v <- load max_pulse_ms ;;
  ret (snprintf buf SERVO_MOTOR_NAME_SIZE (sprintf_u v)).

Definition command_show (buf : string) : kernel ctx (Z * string) :=
  cmd <- load command ;;
  ret (strlen (sprintf_s (servo_motor_command_values cmd)),
       sprintf_s (servo_motor_command_values cmd)).

Definition polarity_show (buf : string) : kernel ctx (Z * string) :=
  pol <- load polarity ;;
  ret (strlen (sprintf_s (servo_motor_polarity_values pol)),
       sprintf_s (servo_motor_polarity_values pol)).

(** [servo_motor_dev_uevent]: the value returned, the environment and the
    messages given to [dev_err].  The answer of the second [add_uevent_var]
    is dropped: the test after it reads [ret] again. *)
Definition servo_motor_dev_uevent (servo : servo_motor_device ctx)
           (env : uevent_env) : Z * uevent_env * list string :=
  let '(r, env) := add_uevent_var env ("NAME=" ++ name servo) in
  let r := to_int r in
  if negb (r =? 0) then (r, env, ["failed to add uevent NAME"%string])
  else
    let '(_, env) := add_uevent_var env ("PORT_NAME=" ++ port_name servo) in
    if negb (r =? 0) then (r, env, ["failed to add uevent PORT_NAME"%string])
    else (0, env, []).

(** The part of [register_servo_motor] that works on the device: default
    pulses, then the command the driver's raw position stands for, then
    [device_register]. *)
Definition register_device (dev_name : string) : kernel ctx Z :=
  store (with_min_pulse_ms 600) ;;
  store (with_mid_pulse_ms 1500) ;;
  store (with_max_pulse_ms 2400) ;;
  r <- servo_motor_class_get_command ;;
  match r with
  | inl err => ret err
  | inr cmd =>
    store (with_command cmd) ;;
    let r := to_int (device_register dev_name) in
    if negb (r =? 0) then ret r else ret 0
  end.

(** [register_servo_motor(servo, parent)] with the counter
    [servo_motor_class_id] passed in.  A null [servo] or [parent] is [None].
    The device record holds the text of the port name; whether the pointer
    [servo->port_name] is set is given beside it, and is only looked at for a
    device that is there. *)
Definition register_servo_motor (servo : option (machine ctx))
           (has_port_name : bool) (parent : option string)
           (servo_motor_class_id : Z)
  : option (registration ctx) :=
  let invalid :=
    Some {| reg_result := - EINVAL; reg_servo := servo;
            reg_dev_name := None; reg_class_id := servo_motor_class_id |} in
  match servo with
  | None => invalid
  | Some s =>
    if negb has_port_name then invalid
    else
      match parent with
      | None => invalid
      | Some _ =>
        let dev_name :=
          ("motor"
             ++ NilZero.string_of_int (Z.to_int (to_int servo_motor_class_id)))%string in
        let servo_motor_class_id := to_unsigned (servo_motor_class_id + 1) in
        match register_device dev_name s with
        | Some (r, s') =>
          Some {| reg_result := r; reg_servo := Some s';
                  reg_dev_name := Some dev_name;
                  reg_class_id := servo_motor_class_id |}
        | None => None
        end
      end
  end.

(** The callback behind each request, with the value it returns and, for a
    read, the buffer afterwards (a write has no buffer to fill). *)
Definition serve (q : request) : kernel ctx (Z * string) :=
  let written (c : kernel ctx Z) : kernel ctx (Z * string) :=
    r <- c ;; ret (r, EmptyString) in
  match q with
  | ReadName buf => name_show buf
  | ReadPortName buf => port_name_show buf
  | ReadMinPulse buf => min_pulse_ms_show buf
  | WriteMinPulse buf count => written (min_pulse_ms_store sscanf_u buf count)
  | ReadMidPulse buf => mid_pulse_ms_show buf
  | WriteMidPulse buf count => written (mid_pulse_ms_store sscanf_u buf count)
  | ReadMaxPulse buf => max_pulse_ms_show buf
  | WriteMaxPulse buf count => written (max_pulse_ms_store sscanf_u buf count)
  | ReadCommand buf => command_show buf
  | WriteCommand buf size => written (command_store dm sysfs_streq buf size)
  | ReadPolarity buf => polarity_show buf
  | WritePolarity buf size => written (polarity_store dm sysfs_streq buf size)
  | ReadPosition buf => position_show dm buf
  | WritePosition buf count => written (position_store dm sscanf_d buf count)
  | ReadRate buf => rate_show buf
  | WriteRate buf count => written (rate_store sscanf_u buf count)
  end.

(** The command, or polarity, a written buffer names: the first entry of the
    value table that [sysfs_streq] accepts, as the loops search. *)
Definition written_command (buf : string) : option servo_motor_command :=
  find (fun i => sysfs_streq buf (servo_motor_command_values i)) all_commands.

Definition written_polarity (buf : string) : option servo_motor_polarity :=
  find (fun i => sysfs_streq buf (servo_motor_polarity_values i)) all_polarities.

(** The percentage the scaling works on: negated for inverted polarity. *)
Definition effective_percent (percent : Z) (pol : servo_motor_polarity) : Z :=
  match pol with
  | SERVO_MOTOR_POLARITY_INVERTED => - percent
  | SERVO_MOTOR_POLARITY_NORMAL => percent
  end.

(** The two linear maps in closed form: the pulse of an effective
    percentage, and the percentage of a raw pulse. *)
Definition pulse_value (m : servo_motor_device ctx) (p : Z) : Z :=
  if 0 <? p
  then p * (max_pulse_ms m - mid_pulse_ms m) ÷ 100 + mid_pulse_ms m
  else (p + 100) * (mid_pulse_ms m - min_pulse_ms m) ÷ 100 + min_pulse_ms m.

Definition percent_value (m : servo_motor_device ctx) (raw : Z) : Z :=
  if raw <? mid_pulse_ms m
  then (raw - min_pulse_ms m) * 100 ÷ (mid_pulse_ms m - min_pulse_ms m) - 100
  else (raw - mid_pulse_ms m) * 100 ÷ (max_pulse_ms m - mid_pulse_ms m).

(** Two states with the same pulse bounds. *)
Definition same_pulses (s s' : machine ctx) : Prop :=
  min_pulse_ms (motor s') = min_pulse_ms (motor s) /\
  mid_pulse_ms (motor s') = mid_pulse_ms (motor s) /\
  max_pulse_ms (motor s') = max_pulse_ms (motor s).

(** The stored position is a percentage. *)
Definition position_valid (m : servo_motor_device ctx) : Prop :=
  -100 <= position m <= 100.

(** The pulse bounds lie in the ranges the stores accept. *)
Definition pulses_valid (m : servo_motor_device ctx) : Prop :=
  300 <= min_pulse_ms m <= 700 /\
  1300 <= mid_pulse_ms m <= 1700 /\
  2300 <= max_pulse_ms m <= 2700.

(** The states a motor goes through: registered successfully, then any
    sequence of requests on its attributes. *)
Inductive reachable : machine ctx -> Prop :=
| reachable_registered (servo : option (machine ctx)) (has_port_name : bool)
                       (parent : option string)
                       (id : Z) (reg : registration ctx) (s : machine ctx) :
    register_servo_motor servo has_port_name parent id = Some reg ->
    reg_result reg = 0 ->
    reg_servo reg = Some s ->
    reachable s
| reachable_served (s : machine ctx) (q : request) (r : Z * string)
                   (s' : machine ctx) :
    reachable s ->
    serve q s = Some (r, s') ->
    reachable s'.

End ServoMotorSysfs.

Arguments name_show {ctx}.
Arguments port_name_show {ctx}.
Arguments min_pulse_ms_show {ctx}.
Arguments mid_pulse_ms_show {ctx}.
Arguments max_pulse_ms_show {ctx}.
Arguments command_show {ctx}.
Arguments polarity_show {ctx}.
Arguments servo_motor_dev_uevent {ctx uevent_env}.
Arguments register_device {ctx}.
Arguments register_servo_motor {ctx}.
Arguments serve dm {ctx}.
Arguments pulses_valid {ctx}.
Arguments same_pulses {ctx}.
Arguments position_valid {ctx}.
Arguments pulse_value {ctx}.
Arguments percent_value {ctx}.
Arguments written_command sysfs_streq buf : assert.
Arguments written_polarity sysfs_streq buf : assert.
Arguments reachable dm {ctx}.

(** ** More of the concrete setting

    A [device_register] that accepts every device, a uevent environment
    with room for a given number of variables, a motor as a driver hands it
    over before registration, and a PWM channel with a rate. *)

Module DemoKernel.

Definition register_ok (dev_name : string) : Z := 0.

Definition add_var (room : nat) (env : list string) (v : string)
  : Z * list string :=
  if (List.length env <? room)%nat then (0, (env ++ [v])%list) else (-12, env).

Definition fresh (c : Demo.pwm) : machine Demo.pwm :=
  {| motor := {| name := "pwm-servo"; port_name := "out1";
                 ops := Demo.pwm_ops; context := c;
                 min_pulse_ms := 0; mid_pulse_ms := 0; max_pulse_ms := 0;
                 command := SERVO_MOTOR_COMMAND_RUN;
                 polarity := SERVO_MOTOR_POLARITY_NORMAL; position := 0 |};
     calls := [] |}.

(** The motor that registering [fresh] on an idle channel gives. *)
Definition registered : machine Demo.pwm :=
  {| motor := {| name := "pwm-servo"; port_name := "out1";
                 ops := Demo.pwm_ops; context := Demo.idle;
                 min_pulse_ms := 600; mid_pulse_ms := 1500;
                 max_pulse_ms := 2400;
                 command := SERVO_MOTOR_COMMAND_FLOAT;
                 polarity := SERVO_MOTOR_POLARITY_NORMAL; position := 0 |};
     calls := [CallGetPosition] |}.

End DemoKernel.

(** ** Facts about the conversions *)

Module CIntFacts.

Lemma pow2_pos (w : Z) : 0 <= w -> 0 < 2 ^ w.
Proof. intros; apply Z.pow_pos_nonneg; lia. Qed.

Lemma wrap_unsigned_range (w x : Z) :
  0 <= w -> 0 <= wrap_unsigned w x < 2 ^ w.
Proof. intros; unfold wrap_unsigned; apply Z.mod_pos_bound, pow2_pos; trivial. Qed.

Lemma wrap_unsigned_small (w x : Z) :
  0 <= x < 2 ^ w -> wrap_unsigned w x = x.
Proof. intros; unfold wrap_unsigned; apply Z.mod_small; trivial. Qed.

Lemma wrap_unsigned_sub (w x y : Z) :
  wrap_unsigned w (wrap_unsigned w x - wrap_unsigned w y) = wrap_unsigned w (x - y).
Proof. unfold wrap_unsigned; symmetry; apply Zminus_mod. Qed.

Lemma wrap_unsigned_add_r (w x y : Z) :
  wrap_unsigned w (x + wrap_unsigned w y) = wrap_unsigned w (x + y).
Proof. unfold wrap_unsigned; apply Zplus_mod_idemp_r. Qed.

Lemma wrap_signed_range (w x : Z) :
  0 < w -> - 2 ^ (w - 1) <= wrap_signed w x < 2 ^ (w - 1).
Proof.
  intros Hw; unfold wrap_signed.
  assert (H2 : 2 ^ w = 2 * 2 ^ (w - 1)).
  { replace w with (Z.succ (w - 1)) at 1 by lia. apply Z.pow_succ_r; lia. }
  pose proof (Z.mod_pos_bound (x + 2 ^ (w - 1)) (2 ^ w) (pow2_pos w ltac:(lia))).
  lia.
Qed.

Lemma wrap_signed_small (w x : Z) :
  0 < w -> - 2 ^ (w - 1) <= x < 2 ^ (w - 1) -> wrap_signed w x = x.
Proof.
  intros Hw Hx; unfold wrap_signed.
  assert (H2 : 2 ^ w = 2 * 2 ^ (w - 1)).
  { replace w with (Z.succ (w - 1)) at 1 by lia. apply Z.pow_succ_r; lia. }
  rewrite Z.mod_small; lia.
Qed.

(** Both conversions only depend on the residue modulo [2^w]. *)
Lemma wrap_signed_unsigned (w x : Z) :
  wrap_signed w (wrap_unsigned w x) = wrap_signed w x.
Proof.
  unfold wrap_signed, wrap_unsigned. now rewrite Zplus_mod_idemp_l.
Qed.

Lemma wrap_unsigned_signed (w x : Z) :
  0 < w -> wrap_unsigned w (wrap_signed w x) = wrap_unsigned w x.
Proof.
  intros Hw; unfold wrap_signed, wrap_unsigned.
  rewrite Zminus_mod_idemp_l.
  f_equal; lia.
Qed.

Lemma to_unsigned_small (x : Z) : 0 <= x < 2 ^ 32 -> to_unsigned x = x.
Proof. apply wrap_unsigned_small. Qed.

Lemma to_int_small (x : Z) : int_range x -> to_int x = x.
Proof.
  unfold int_range, INT_MIN, INT_MAX; intros.
  apply wrap_signed_small; simpl; lia.
Qed.

Lemma to_int_range (x : Z) : int_range (to_int x).
Proof.
  pose proof (wrap_signed_range 32 x ltac:(lia)) as H.
  unfold int_range, INT_MIN, INT_MAX, to_int; simpl in *; lia.
Qed.

Lemma to_int_unsigned (x : Z) : to_int (to_unsigned x) = to_int x.
Proof. apply wrap_signed_unsigned. Qed.

Lemma to_unsigned_pos_int (x : Z) : 0 <= x -> int_range x -> to_unsigned x = x.
Proof.
  unfold int_range, INT_MAX; intros; apply to_unsigned_small; lia.
Qed.

(** Bounds on a truncated quotient of a product. *)
Lemma quot_product_bounds (a b c : Z) :
  0 <= a -> 0 <= b -> 0 < c -> 0 <= a * b ÷ c <= a * b.
Proof.
  intros Ha Hb Hc.
  assert (Hab : 0 <= a * b) by (apply Z.mul_nonneg_nonneg; assumption).
  rewrite Z.quot_div_nonneg by lia.
  split.
  - apply Z.div_pos; lia.
  - apply Z.div_le_upper_bound; nia.
Qed.

Lemma quot_product_le_factor (a b c : Z) :
  0 <= a <= c -> 0 <= b -> 0 < c -> a * b ÷ c <= b.
Proof.
  intros Ha Hb Hc.
  assert (Hab : 0 <= a * b) by (apply Z.mul_nonneg_nonneg; lia).
  rewrite Z.quot_div_nonneg by lia.
  apply Z.div_le_upper_bound; nia.
Qed.

End CIntFacts.
Import CIntFacts.

(** ** The scaling helper on inputs whose product fits *)

Section ScaleFacts.

Variable dm : data_model.
Variables in_min in_max out_min out_max value : Z.

Hypothesis value_range : 0 <= value - in_min < 2 ^ 32.
Hypothesis out_range : 0 <= out_max - out_min < 2 ^ 32.
Hypothesis in_range : 0 < in_max - in_min < 2 ^ 32.
Hypothesis product_fits :
  (value - in_min) * (out_max - out_min) < product_limit dm.
Hypothesis out_min_int : int_range out_min.
Hypothesis result_fits :
  int_range ((value - in_min) * (out_max - out_min) ÷ (in_max - in_min) + out_min).

Lemma quotient_range :
  0 <= (value - in_min) * (out_max - out_min) ÷ (in_max - in_min)
    <= (value - in_min) * (out_max - out_min).
Proof. apply quot_product_bounds; lia. Qed.

Lemma scale_differences :
  to_unsigned (to_unsigned value - to_unsigned in_min) = value - in_min /\
  to_unsigned (to_unsigned out_max - to_unsigned out_min) = out_max - out_min /\
  to_unsigned (to_unsigned in_max - to_unsigned in_min) = in_max - in_min.
Proof.
  unfold to_unsigned; rewrite !wrap_unsigned_sub.
  repeat split; apply wrap_unsigned_small; assumption || lia.
Qed.

Lemma scale_no_overflow :
  servo_motor_class_scale dm in_min in_max out_min out_max value =
  Some ((value - in_min) * (out_max - out_min) ÷ (in_max - in_min) + out_min).
Proof.
  destruct scale_differences as (Ha & Hb & Hc).
  pose proof quotient_range as Hq.
  unfold servo_motor_class_scale.
  rewrite Ha, Hb, Hc.
  revert product_fits result_fits out_min_int Hq.
  unfold int_range, INT_MIN, INT_MAX.
  set (a := value - in_min) in *.
  set (b := out_max - out_min) in *.
  set (c := in_max - in_min) in *.
  intros Hfit Hres Hout Hq.
  destruct (Z.eqb_spec c 0) as [E | _]; [lia |].
  f_equal.
  destruct dm; unfold long_op_unsigned, to_long, long_bits;
    unfold product_limit in Hfit.
  - rewrite !wrap_unsigned_signed by lia.
    rewrite (wrap_unsigned_small 32 a) by assumption.
    rewrite !(wrap_unsigned_small 32 (a * b)) by lia.
    rewrite !(wrap_unsigned_small 32 (a * b ÷ c)) by lia.
    unfold to_unsigned; rewrite wrap_unsigned_add_r.
    rewrite wrap_signed_unsigned.
    unfold to_int.
    rewrite (wrap_signed_small 32 (wrap_signed 32 _))
      by (lia || apply wrap_signed_range; lia).
    apply to_int_small; unfold int_range, INT_MIN, INT_MAX; assumption.
  - pose proof (wrap_unsigned_range 32 out_min ltac:(lia)) as Ho.
    rewrite (wrap_signed_small 64 a) by (simpl; lia).
    rewrite (wrap_signed_small 64 (a * b)) by (simpl; lia).
    rewrite (wrap_signed_small 64 (a * b ÷ c)) by (simpl; lia).
    unfold to_unsigned.
    rewrite (wrap_signed_small 64) by (simpl in *; lia).
    unfold to_int.
    rewrite <- wrap_signed_unsigned, wrap_unsigned_add_r, wrap_signed_unsigned.
    apply to_int_small; unfold int_range, INT_MIN, INT_MAX; assumption.
Qed.

End ScaleFacts.

(** On the write side the input range is a constant of width 100, so the
    helper always has a result. *)
Lemma scale_percent_defined (dm : data_model) (lo out_min out_max value : Z) :
  exists pulse,
    servo_motor_class_scale dm lo (lo + 100) out_min out_max value = Some pulse.
Proof.
  unfold servo_motor_class_scale.
  assert (E : to_unsigned (to_unsigned (lo + 100) - to_unsigned lo) = 100).
  { unfold to_unsigned; rewrite wrap_unsigned_sub.
    replace (lo + 100 - lo) with 100 by lia. reflexivity. }
  rewrite E; simpl (100 =? 0).
  eexists; reflexivity.
Qed.

(** C3 as stated fails once the product wraps: mapping the whole [int]
    range onto itself should send [INT_MAX] to [INT_MAX]; a 32-bit [long]
    gives [INT_MIN] and a 64-bit [long] gives [INT_MAX - 1]. *)
Lemma scale_full_range_wraps :
  int_range INT_MIN /\ int_range INT_MAX /\
  INT_MAX > INT_MIN /\ INT_MIN <= INT_MAX <= INT_MAX /\ INT_MIN <= INT_MAX /\
  servo_motor_class_scale ILP32 INT_MIN INT_MAX INT_MIN INT_MAX INT_MAX
  <> Some ((INT_MAX - INT_MIN) * (INT_MAX - INT_MIN) ÷ (INT_MAX - INT_MIN)
           + INT_MIN) /\
  servo_motor_class_scale LP64 INT_MIN INT_MAX INT_MIN INT_MAX INT_MAX
  <> Some ((INT_MAX - INT_MIN) * (INT_MAX - INT_MIN) ÷ (INT_MAX - INT_MIN)
           + INT_MIN).
Proof. vm_compute; intuition congruence. Qed.

Example scale_full_range_values :
  servo_motor_class_scale ILP32 INT_MIN INT_MAX INT_MIN INT_MAX INT_MAX
  = Some INT_MIN /\
  servo_motor_class_scale LP64 INT_MIN INT_MAX INT_MIN INT_MAX INT_MAX
  = Some (INT_MAX - 1).
Proof. split; reflexivity. Qed.

(** With a 32-bit [long] the product already wraps for moderate ranges. *)
Example scale_ilp32_wraps :
  servo_motor_class_scale ILP32 0 100000 0 100000 100000 = Some 14100.
Proof. reflexivity. Qed.

(** C3 (amended): for [int] arguments with [in_max > in_min],
    [in_min <= value <= in_max], [out_min <= out_max] and a product
    [(value - in_min) * (out_max - out_min)] that the [long] accumulator
    takes without wrapping (below [2^32] for a 32-bit [long], below [2^63]
    for a 64-bit one), [servo_motor_class_scale] returns
    [(value - in_min) * (out_max - out_min) / (in_max - in_min) + out_min]
    with the division truncating toward zero, on either data model; and
    scale(0,100,1500,2400,0) = 1500, scale(0,100,1500,2400,100) = 2400,
    scale(-100,0,600,1500,-100) = 600. *)
Theorem scale_formula (dm : data_model)
        (in_min in_max out_min out_max value : Z) :
  int_range in_min -> int_range in_max ->
  int_range out_min -> int_range out_max -> int_range value ->
  in_max > in_min -> in_min <= value <= in_max -> out_min <= out_max ->
  (value - in_min) * (out_max - out_min) < product_limit dm ->
  servo_motor_class_scale dm in_min in_max out_min out_max value
    = Some ((value - in_min) * (out_max - out_min) ÷ (in_max - in_min) + out_min)
  /\ servo_motor_class_scale dm 0 100 1500 2400 0 = Some 1500
  /\ servo_motor_class_scale dm 0 100 1500 2400 100 = Some 2400
  /\ servo_motor_class_scale dm (-100) 0 600 1500 (-100) = Some 600.
Proof.
  unfold int_range, INT_MIN, INT_MAX.
  intros Himin Himax Homin Homax Hv Hin Hval Hout Hprod.
  split; [| destruct dm; repeat split; reflexivity].
  apply scale_no_overflow; unfold int_range, INT_MIN, INT_MAX; try lia.
  pose proof (quot_product_bounds (value - in_min) (out_max - out_min)
                (in_max - in_min) ltac:(lia) ltac:(lia) ltac:(lia)).
  pose proof (quot_product_le_factor (value - in_min) (out_max - out_min)
                (in_max - in_min) ltac:(lia) ltac:(lia) ltac:(lia)).
  unfold int_range, INT_MIN, INT_MAX; lia.
Qed.

Lemma scale_formula_witness :
  (0 > -100 /\ -100 <= -40 <= 0 /\ 600 <= 1500 /\
   (-40 - -100) * (1500 - 600) < product_limit ILP32) /\
  servo_motor_class_scale ILP32 (-100) 0 600 1500 (-40) = Some 1140 /\
  servo_motor_class_scale LP64 0 100 1500 2400 50 = Some 1950.
Proof.
  split; [unfold product_limit; lia |].
  split.
  - apply (scale_formula ILP32 (-100) 0 600 1500 (-40));
      unfold int_range, INT_MIN, INT_MAX, product_limit; lia.
  - apply (scale_formula LP64 0 100 1500 2400 50);
      unfold int_range, INT_MIN, INT_MAX, product_limit; lia.
Defined.

(** ** Running a computation step by step *)

Section MonadFacts.

Context {ctx : Type} {A B : Type}.

Lemma bind_ret (a : A) (k : A -> kernel ctx B) (s : machine ctx) :
  bind (ret a) k s = k a s.
Proof. reflexivity. Qed.

Lemma bind_load (field : servo_motor_device ctx -> A) (k : A -> kernel ctx B)
      (s : machine ctx) :
  bind (load field) k s = k (field (motor s)) s.
Proof. reflexivity. Qed.

Lemma bind_store (upd : servo_motor_device ctx -> servo_motor_device ctx)
      (k : unit -> kernel ctx B) (s : machine ctx) :
  bind (store upd) k s = k tt {| motor := upd (motor s); calls := calls s |}.
Proof. reflexivity. Qed.

Lemma bind_bind {C : Type} (c : kernel ctx A) (k : A -> kernel ctx B)
      (k' : B -> kernel ctx C) (s : machine ctx) :
  bind (bind c k) k' s = bind c (fun a => bind (k a) k') s.
Proof. unfold bind; destruct (c s) as [[a s'] |]; reflexivity. Qed.

Lemma bind_set_position (value : Z) (k : Z -> kernel ctx B) (s : machine ctx) :
  bind (ops_set_position value) k s
  = k (driver_answer s value) (after_set_position s value).
Proof.
  unfold bind, ops_set_position, driver_answer, after_set_position.
  destruct (set_position _ _ _); reflexivity.
Qed.

Lemma bind_get_position (k : Z -> kernel ctx B) (s : machine ctx) :
  bind ops_get_position k s = k (driver_reading s) (after_get_position s).
Proof.
  unfold bind, ops_get_position, driver_reading, after_get_position.
  destruct (get_position _ _); reflexivity.
Qed.

End MonadFacts.

Ltac step :=
  repeat (rewrite bind_bind || rewrite bind_ret || rewrite bind_load
          || rewrite bind_store || rewrite bind_set_position
          || rewrite bind_get_position).

Ltac run :=
  unfold bind, load, store, ret, lift, trap, ops_set_position,
    ops_get_position; simpl.

(** ** The class functions *)

Section ClassFacts.

Variable dm : data_model.
Variable ctx : Type.
Variable sscanf_d : string -> option Z.
Variable sscanf_u : string -> option Z.
Variable sysfs_streq : string -> string -> bool.

Implicit Type s : machine ctx.

Opaque servo_motor_class_scale.

(** The pulse of a percentage always exists: the input range has width 100. *)
Lemma apply_position_pulse_defined (m : servo_motor_device ctx)
      (percent : Z) (pol : servo_motor_polarity) :
  exists pulse, apply_position_pulse dm m percent pol = Some pulse.
Proof.
  unfold apply_position_pulse.
  destruct (0 <? _).
  - apply (scale_percent_defined dm 0).
  - apply (scale_percent_defined dm (-100)).
Qed.

(** While floating, [servo_motor_class_set_position] only records. *)
Lemma set_position_float s (new_position : Z) (new_polarity : servo_motor_polarity) :
  command (motor s) = SERVO_MOTOR_COMMAND_FLOAT ->
  servo_motor_class_set_position dm new_position new_polarity s
  = Some (0, recorded s new_position new_polarity).
Proof.
  intros Hc. unfold servo_motor_class_set_position. run.
  rewrite Hc; reflexivity.
Qed.

(** While running, it records and then hands the scaled pulse to the driver. *)
Lemma set_position_run s (new_position : Z) (new_polarity : servo_motor_polarity)
      (pulse : Z) :
  command (motor s) = SERVO_MOTOR_COMMAND_RUN ->
  apply_position_pulse dm (motor s) new_position new_polarity = Some pulse ->
  servo_motor_class_set_position dm new_position new_polarity s
  = Some (driver_answer (recorded s new_position new_polarity) pulse,
          after_set_position (recorded s new_position new_polarity) pulse).
Proof.
  intros Hc Hp. unfold servo_motor_class_set_position. run.
  rewrite Hc; simpl.
  revert Hp; unfold apply_position_pulse.
  unfold driver_answer, after_set_position, recorded; simpl.
  destruct new_polarity; simpl; rewrite Z.gtb_ltb;
    destruct (0 <? _); intros Hp; run; rewrite Hp; simpl;
    destruct (set_position _ _ _); reflexivity.
Qed.

Lemma recorded_same s :
  recorded s (position (motor s)) (polarity (motor s)) = s.
Proof. destruct s as [[] ?]; reflexivity. Qed.

Lemma command_store_run_to_float s (buf : string) (size : Z) :
  command (motor s) = SERVO_MOTOR_COMMAND_RUN ->
  sysfs_streq buf "run" = false ->
  sysfs_streq buf "float" = true ->
  command_store dm sysfs_streq buf size s
  = Some (status (driver_answer (commanded s SERVO_MOTOR_COMMAND_FLOAT) 0) size,
          after_set_position (commanded s SERVO_MOTOR_COMMAND_FLOAT) 0).
Proof.
  intros Hc Hrun Hfloat.
  unfold command_store, all_commands, command_store_from; simpl.
  rewrite Hrun, Hfloat; simpl. run. rewrite Hc; simpl.
  unfold status, driver_answer, after_set_position, commanded; simpl.
  destruct (set_position _ _ _) as [r c]; simpl.
  destruct (to_int r =? 0); reflexivity.
Qed.

Lemma command_store_float_to_run s (buf : string) (size pulse : Z) :
  command (motor s) = SERVO_MOTOR_COMMAND_FLOAT ->
  sysfs_streq buf "run" = true ->
  apply_position_pulse dm (motor s) (position (motor s)) (polarity (motor s))
  = Some pulse ->
  command_store dm sysfs_streq buf size s
  = Some (status (driver_answer (commanded s SERVO_MOTOR_COMMAND_RUN) pulse) size,
          after_set_position (commanded s SERVO_MOTOR_COMMAND_RUN) pulse).
Proof.
  intros Hc Hrun Hp.
  unfold command_store, all_commands, command_store_from; simpl.
  rewrite Hrun; simpl.
  step; rewrite Hc; simpl.
  step; simpl; step.
  fold (commanded s SERVO_MOTOR_COMMAND_RUN).
  unfold bind.
  rewrite (set_position_run (commanded s SERVO_MOTOR_COMMAND_RUN)
             (position (motor (commanded s SERVO_MOTOR_COMMAND_RUN)))
             (polarity (motor (commanded s SERVO_MOTOR_COMMAND_RUN)))
             pulse eq_refl Hp).
  rewrite recorded_same.
  unfold status, ret.
  destruct (driver_answer _ _ =? 0); reflexivity.
Qed.

(** C1 (amended): when the command is Run,
    [servo_motor_class_set_position] hands the driver the pulse
    scale(0, 100, mid_pulse, max_pulse, p) when p > 0 and
    scale(-100, 0, min_pulse, mid_pulse, p) when p <= 0, where p is the
    requested percentage, negated when the polarity is Inverted, whatever the
    pulse configuration; and a Float-to-Run transition with stored position
    50, normal polarity and the default pulses calls the driver's
    set_position with pulse 1950. *)
Theorem apply_position_scales s (new_position : Z)
        (new_polarity : servo_motor_polarity)
        (s0 : machine ctx) (buf : string) (size : Z) :
  (command (motor s) = SERVO_MOTOR_COMMAND_RUN ->
   let p := match new_polarity with
            | SERVO_MOTOR_POLARITY_INVERTED => to_int (- new_position)
            | SERVO_MOTOR_POLARITY_NORMAL => new_position
            end in
   exists pulse,
     (p > 0 -> servo_motor_class_scale dm 0 100 (mid_pulse_ms (motor s))
                 (max_pulse_ms (motor s)) p = Some pulse) /\
     (p <= 0 -> servo_motor_class_scale dm (-100) 0 (min_pulse_ms (motor s))
                  (mid_pulse_ms (motor s)) p = Some pulse) /\
     servo_motor_class_set_position dm new_position new_polarity s
     = Some (driver_answer (recorded s new_position new_polarity) pulse,
             after_set_position (recorded s new_position new_polarity) pulse))
  /\
  (command (motor s0) = SERVO_MOTOR_COMMAND_FLOAT ->
   polarity (motor s0) = SERVO_MOTOR_POLARITY_NORMAL ->
   position (motor s0) = 50 ->
   default_pulses (motor s0) ->
   sysfs_streq buf "run" = true ->
   exists r s', command_store dm sysfs_streq buf size s0 = Some (r, s') /\
                calls s' = calls s0 ++ [CallSetPosition 1950]).
Proof.
  split.
  - intros Hc p.
    destruct (apply_position_pulse_defined (motor s) new_position new_polarity)
      as [pulse Hp].
    exists pulse.
    split; [| split].
    + intros Hpos. revert Hp. unfold apply_position_pulse. fold p.
      destruct (Z.ltb_spec 0 p); [trivial | lia].
    + intros Hneg. revert Hp. unfold apply_position_pulse. fold p.
      destruct (Z.ltb_spec 0 p); [lia | trivial].
    + apply set_position_run; assumption.
  - intros Hc Hpol Hpos (Hmin & Hmid & Hmax) Hrun.
    assert (Hp : apply_position_pulse dm (motor s0) (position (motor s0))
                   (polarity (motor s0)) = Some 1950).
    { unfold apply_position_pulse. rewrite Hpol, Hpos, Hmid, Hmax.
      destruct dm; vm_compute; reflexivity. }
    rewrite (command_store_float_to_run s0 buf size 1950 Hc Hrun Hp).
    eexists; eexists; split; reflexivity.
Qed.

(** C4 (amended): with polarity Inverted, position 40 and the default pulse
    configuration the percentage is negated to -40 and, the command being
    Run, the driver is given scale(-100,0,600,1500,-40), which is 1140. *)
Theorem inverted_forty_pulse s :
  command (motor s) = SERVO_MOTOR_COMMAND_RUN ->
  default_pulses (motor s) ->
  to_int (- 40) = -40 /\
  servo_motor_class_scale dm (-100) 0 600 1500 (-40) = Some 1140 /\
  apply_position_pulse dm (motor s) 40 SERVO_MOTOR_POLARITY_INVERTED
  = servo_motor_class_scale dm (-100) 0 600 1500 (-40) /\
  servo_motor_class_set_position dm 40 SERVO_MOTOR_POLARITY_INVERTED s
  = Some (driver_answer (recorded s 40 SERVO_MOTOR_POLARITY_INVERTED) 1140,
          after_set_position (recorded s 40 SERVO_MOTOR_POLARITY_INVERTED) 1140).
Proof.
  intros Hc (Hmin & Hmid & Hmax).
  assert (Hs : servo_motor_class_scale dm (-100) 0 600 1500 (-40) = Some 1140)
    by (destruct dm; vm_compute; reflexivity).
  assert (Hp : apply_position_pulse dm (motor s) 40 SERVO_MOTOR_POLARITY_INVERTED
               = servo_motor_class_scale dm (-100) 0 600 1500 (-40)).
  { unfold apply_position_pulse. rewrite Hmin, Hmid. reflexivity. }
  repeat split; trivial.
  apply set_position_run; [assumption | congruence].
Qed.

(** C7: whatever the stored position, the transition Run to Float sets the
    command, calls the driver's set_position with argument 0, and nothing
    else, and leaves the stored position (and polarity) as they were. *)
Theorem run_to_float_neutral s (buf : string) (size : Z) :
  command (motor s) = SERVO_MOTOR_COMMAND_RUN ->
  sysfs_streq buf "run" = false ->
  sysfs_streq buf "float" = true ->
  exists r s',
    command_store dm sysfs_streq buf size s = Some (r, s') /\
    s' = after_set_position (commanded s SERVO_MOTOR_COMMAND_FLOAT) 0 /\
    calls s' = calls s ++ [CallSetPosition 0] /\
    position (motor s') = position (motor s) /\
    polarity (motor s') = polarity (motor s) /\
    command (motor s') = SERVO_MOTOR_COMMAND_FLOAT /\
    r = status (driver_answer (commanded s SERVO_MOTOR_COMMAND_FLOAT) 0) size.
Proof.
  intros Hc Hrun Hfloat.
  rewrite (command_store_run_to_float s buf size Hc Hrun Hfloat).
  eexists; eexists; repeat split; reflexivity.
Qed.

(** C8: while the command is Float, [servo_motor_class_set_position] records
    the percentage and the polarity, makes no driver call, changes nothing
    else and returns 0; the next Float-to-Run transition then hands the
    driver the pulse of the recorded percentage. *)
Theorem float_records_only s (new_position : Z)
        (new_polarity : servo_motor_polarity) :
  command (motor s) = SERVO_MOTOR_COMMAND_FLOAT ->
  servo_motor_class_set_position dm new_position new_polarity s
  = Some (0, recorded s new_position new_polarity) /\
  position (motor (recorded s new_position new_polarity)) = new_position /\
  polarity (motor (recorded s new_position new_polarity)) = new_polarity /\
  calls (recorded s new_position new_polarity) = calls s /\
  context (motor (recorded s new_position new_polarity)) = context (motor s) /\
  forall (buf : string) (size : Z),
    sysfs_streq buf "run" = true ->
    exists pulse r s',
      apply_position_pulse dm (motor s) new_position new_polarity = Some pulse /\
      command_store dm sysfs_streq buf size (recorded s new_position new_polarity)
      = Some (r, s') /\
      calls s' = calls s ++ [CallSetPosition pulse] /\
      position (motor s') = new_position.
Proof.
  intros Hc.
  split; [apply set_position_float; assumption |].
  repeat (split; [reflexivity |]).
  intros buf size Hrun.
  destruct (apply_position_pulse_defined (motor s) new_position new_polarity)
    as [pulse Hp].
  exists pulse.
  rewrite (command_store_float_to_run (recorded s new_position new_polarity)
             buf size pulse Hc Hrun Hp).
  eexists; eexists; repeat split; trivial.
Qed.

(** *** The command at registration, the polarity and the rate *)

(** The command a raw position stands for: zero is Float, anything else Run;
    a negative driver answer is handed back. *)
Lemma get_command_cases s :
  servo_motor_class_get_command s
  = Some (if driver_reading s <? 0 then inl (driver_reading s)
          else inr (if driver_reading s =? 0 then SERVO_MOTOR_COMMAND_FLOAT
                    else SERVO_MOTOR_COMMAND_RUN),
          after_get_position s).
Proof.
  unfold servo_motor_class_get_command. rewrite bind_get_position.
  destruct (driver_reading s <? 0); [reflexivity |].
  destruct (driver_reading s =? 0); reflexivity.
Qed.

(** Writing the polarity the motor already has changes nothing. *)
Lemma polarity_store_unchanged s (buf : string) (size : Z) :
  sysfs_streq buf (servo_motor_polarity_values (polarity (motor s))) = true ->
  (forall p, p <> polarity (motor s) ->
             sysfs_streq buf (servo_motor_polarity_values p) = false) ->
  polarity_store dm sysfs_streq buf size s = Some (size, s).
Proof.
  intros Hsame Hother.
  unfold polarity_store, all_polarities, polarity_store_from.
  destruct (polarity (motor s)) eqn:Hp.
  - rewrite Hsame; simpl. step. rewrite Hp. reflexivity.
  - rewrite (Hother SERVO_MOTOR_POLARITY_NORMAL) by discriminate.
    rewrite Hsame; simpl. step. rewrite Hp. reflexivity.
Qed.

(** A changed polarity is recorded and, while running, applied at once. *)
Lemma polarity_store_inverts s (buf : string) (size pulse : Z) :
  polarity (motor s) = SERVO_MOTOR_POLARITY_NORMAL ->
  command (motor s) = SERVO_MOTOR_COMMAND_RUN ->
  sysfs_streq buf "normal" = false ->
  sysfs_streq buf "inverted" = true ->
  apply_position_pulse dm (motor s) (position (motor s))
                       SERVO_MOTOR_POLARITY_INVERTED = Some pulse ->
  polarity_store dm sysfs_streq buf size s
  = Some (status (driver_answer
                    (recorded s (position (motor s))
                              SERVO_MOTOR_POLARITY_INVERTED) pulse) size,
          after_set_position
            (recorded s (position (motor s)) SERVO_MOTOR_POLARITY_INVERTED)
            pulse).
Proof.
  intros Hpol Hc Hn Hi Hp.
  unfold polarity_store, all_polarities, polarity_store_from; simpl.
  rewrite Hn, Hi; simpl. step. rewrite Hpol; simpl. step.
  unfold bind.
  rewrite (set_position_run s _ _ pulse Hc Hp).
  unfold status, ret. destruct (driver_answer _ _ =? 0); reflexivity.
Qed.

(** Without the rate callbacks both rate attributes answer -ENOSYS, whatever
    is written and whatever the state. *)
Lemma rate_not_supported s (buf : string) (count : Z) :
  (get_rate (ops (motor s)) = None ->
   rate_show buf s = Some ((- ENOSYS, buf), s)) /\
  (set_rate (ops (motor s)) = None ->
   rate_store sscanf_u buf count s = Some (- ENOSYS, s)).
Proof.
  split; intros H; [unfold rate_show | unfold rate_store];
    rewrite bind_load, H; reflexivity.
Qed.

(** *** Writing the position attribute *)

Lemma position_store_rejects s (buf : string) (count value : Z) :
  sscanf_d buf = Some value -> int_range value ->
  value > 100 \/ value < -100 ->
  position_store dm sscanf_d buf count s = Some (- EINVAL, s).
Proof.
  intros Hscan Hint Hout. unfold position_store. rewrite Hscan.
  rewrite (to_int_small value Hint).
  destruct (Z.gtb_spec value 100); destruct (Z.ltb_spec value (-100));
    simpl; try reflexivity; lia.
Qed.

Lemma position_store_accepts s (buf : string) (count value : Z) :
  sscanf_d buf = Some value -> -100 <= value <= 100 ->
  position_store dm sscanf_d buf count s
  = if position (motor s) =? value then Some (count, s)
    else bind (servo_motor_class_set_position dm value (polarity (motor s)))
              (fun err => ret (status err count)) s.
Proof.
  intros Hscan Hin. unfold position_store. rewrite Hscan.
  rewrite to_int_small by (unfold int_range, INT_MIN, INT_MAX; lia).
  destruct (Z.gtb_spec value 100); [lia |].
  destruct (Z.ltb_spec value (-100)); [lia |].
  simpl. step.
  destruct (position (motor s) =? value); simpl; [reflexivity |].
  step. unfold bind.
  destruct (servo_motor_class_set_position _ _ _ _) as [[err s'] |];
    [| reflexivity].
  unfold status, ret. destruct (err =? 0); reflexivity.
Qed.

(** C5 (amended): for a parsed position in [-100,100] that differs from the
    stored one, [position_store] records the new position before the driver
    is called and does not take it back: the stored position is the new one
    afterwards, whether the driver accepts the pulse or not.  While floating
    no call is made and the write succeeds; while running the driver gets
    the pulse of the new position and a non-zero answer is returned as the
    error. *)
Theorem position_store_records_first s (buf : string) (count value : Z) :
  sscanf_d buf = Some value -> -100 <= value <= 100 ->
  position (motor s) <> value ->
  exists r s',
    position_store dm sscanf_d buf count s = Some (r, s') /\
    position (motor s') = value /\
    match command (motor s) with
    | SERVO_MOTOR_COMMAND_FLOAT => r = count /\ calls s' = calls s
    | SERVO_MOTOR_COMMAND_RUN =>
      exists pulse,
        apply_position_pulse dm (motor s) value (polarity (motor s)) = Some pulse /\
        calls s' = calls s ++ [CallSetPosition pulse] /\
        let err := driver_answer (recorded s value (polarity (motor s))) pulse in
        r = if err =? 0 then count else err
    end.
Proof.
  intros Hscan Hin Hne.
  rewrite (position_store_accepts s buf count value Hscan Hin).
  destruct (Z.eqb_spec (position (motor s)) value) as [E | _]; [contradiction |].
  destruct (apply_position_pulse_defined (motor s) value (polarity (motor s)))
    as [pulse Hp].
  unfold bind.
  destruct (command (motor s)) eqn:Hc.
  - rewrite (set_position_run s value (polarity (motor s)) pulse Hc Hp).
    eexists; eexists; split; [reflexivity |].
    split; [reflexivity |].
    exists pulse.
    split; [trivial |]. split; [reflexivity |].
    unfold status; simpl.
    destruct (driver_answer _ _ =? 0); reflexivity.
  - rewrite (set_position_float s value (polarity (motor s)) Hc).
    eexists; eexists; split; [reflexivity |].
    split; [reflexivity |].
    split; reflexivity.
Qed.

(** C6: a write whose parsed position lies outside [-100,100] (150 and -101
    for instance) makes [position_store] return -EINVAL with the whole state
    as it was: stored position, every other field, the driver's data, and no
    driver call; a write whose parsed position is the stored one makes it
    return the count, again with the state as it was and no driver call. *)
Theorem position_store_validates s (count : Z) :
  (forall (buf : string) (value : Z),
      sscanf_d buf = Some value -> int_range value ->
      value > 100 \/ value < -100 ->
      position_store dm sscanf_d buf count s = Some (- EINVAL, s)) /\
  (forall buf : string,
      sscanf_d buf = Some (position (motor s)) ->
      -100 <= position (motor s) <= 100 ->
      position_store dm sscanf_d buf count s = Some (count, s)).
Proof.
  split.
  - intros buf value Hscan Hint Hout.
    apply (position_store_rejects s buf count value); assumption.
  - intros buf Hscan Hin.
    rewrite (position_store_accepts s buf count _ Hscan Hin).
    rewrite Z.eqb_refl; reflexivity.
Qed.

(** *** Writing the pulse bounds *)

(** A pulse-bound write either is refused with the state as it was, or
    stores the parsed value, which lies in the field's range, and touches
    nothing else. *)
Lemma min_pulse_ms_store_cases s (buf : string) (count : Z) :
  min_pulse_ms_store sscanf_u buf count s = Some (- EINVAL, s) \/
  exists value,
    sscanf_u buf = Some value /\ 300 <= to_unsigned value <= 700 /\
    let s' := {| motor := with_min_pulse_ms (to_unsigned value) (motor s);
                 calls := calls s |} in
    min_pulse_ms_store sscanf_u buf count s = Some (count, s') /\
    min_pulse_ms (motor s') = to_unsigned value /\
    mid_pulse_ms (motor s') = mid_pulse_ms (motor s) /\
    max_pulse_ms (motor s') = max_pulse_ms (motor s) /\
    same_but_pulses s s'.
Proof.
  unfold min_pulse_ms_store. destruct (sscanf_u buf) as [value |]; [| now left].
  destruct (Z.gtb_spec (to_unsigned value) 700);
    destruct (Z.ltb_spec (to_unsigned value) 300); simpl; try (now left).
  right; exists value; unfold same_but_pulses; simpl.
  repeat split; trivial; lia.
Qed.

Lemma mid_pulse_ms_store_cases s (buf : string) (count : Z) :
  mid_pulse_ms_store sscanf_u buf count s = Some (- EINVAL, s) \/
  exists value,
    sscanf_u buf = Some value /\ 1300 <= to_unsigned value <= 1700 /\
    let s' := {| motor := with_mid_pulse_ms (to_unsigned value) (motor s);
                 calls := calls s |} in
    mid_pulse_ms_store sscanf_u buf count s = Some (count, s') /\
    mid_pulse_ms (motor s') = to_unsigned value /\
    min_pulse_ms (motor s') = min_pulse_ms (motor s) /\
    max_pulse_ms (motor s') = max_pulse_ms (motor s) /\
    same_but_pulses s s'.
Proof.
  unfold mid_pulse_ms_store. destruct (sscanf_u buf) as [value |]; [| now left].
  destruct (Z.gtb_spec (to_unsigned value) 1700);
    destruct (Z.ltb_spec (to_unsigned value) 1300); simpl; try (now left).
  right; exists value; unfold same_but_pulses; simpl.
  repeat split; trivial; lia.
Qed.

Lemma max_pulse_ms_store_cases s (buf : string) (count : Z) :
  max_pulse_ms_store sscanf_u buf count s = Some (- EINVAL, s) \/
  exists value,
    sscanf_u buf = Some value /\ 2300 <= to_unsigned value <= 2700 /\
    let s' := {| motor := with_max_pulse_ms (to_unsigned value) (motor s);
                 calls := calls s |} in
    max_pulse_ms_store sscanf_u buf count s = Some (count, s') /\
    max_pulse_ms (motor s') = to_unsigned value /\
    min_pulse_ms (motor s') = min_pulse_ms (motor s) /\
    mid_pulse_ms (motor s') = mid_pulse_ms (motor s) /\
    same_but_pulses s s'.
Proof.
  unfold max_pulse_ms_store. destruct (sscanf_u buf) as [value |]; [| now left].
  destruct (Z.gtb_spec (to_unsigned value) 2700);
    destruct (Z.ltb_spec (to_unsigned value) 2300); simpl; try (now left).
  right; exists value; unfold same_but_pulses; simpl.
  repeat split; trivial; lia.
Qed.

(** C9: writing 250 to min_pulse_ms, 1800 to mid_pulse_ms or 2800 to
    max_pulse_ms returns -EINVAL and leaves the state, the field included,
    as it was; and every pulse-bound write either is refused in that way or
    stores the parsed value, which lies in the field's range, in that field
    only: no driver call, the driver's data and every other field
    unchanged. *)
Theorem pulse_bounds_validated s (count : Z) :
  (forall buf, sscanf_u buf = Some 250 ->
     min_pulse_ms_store sscanf_u buf count s = Some (- EINVAL, s)) /\
  (forall buf, sscanf_u buf = Some 1800 ->
     mid_pulse_ms_store sscanf_u buf count s = Some (- EINVAL, s)) /\
  (forall buf, sscanf_u buf = Some 2800 ->
     max_pulse_ms_store sscanf_u buf count s = Some (- EINVAL, s)) /\
  forall buf : string,
  (min_pulse_ms_store sscanf_u buf count s = Some (- EINVAL, s) \/
   exists value,
     sscanf_u buf = Some value /\ 300 <= to_unsigned value <= 700 /\
     let s' := {| motor := with_min_pulse_ms (to_unsigned value) (motor s);
                  calls := calls s |} in
     min_pulse_ms_store sscanf_u buf count s = Some (count, s') /\
     min_pulse_ms (motor s') = to_unsigned value /\
     mid_pulse_ms (motor s') = mid_pulse_ms (motor s) /\
     max_pulse_ms (motor s') = max_pulse_ms (motor s) /\
     same_but_pulses s s') /\
  (mid_pulse_ms_store sscanf_u buf count s = Some (- EINVAL, s) \/
   exists value,
     sscanf_u buf = Some value /\ 1300 <= to_unsigned value <= 1700 /\
     let s' := {| motor := with_mid_pulse_ms (to_unsigned value) (motor s);
                  calls := calls s |} in
     mid_pulse_ms_store sscanf_u buf count s = Some (count, s') /\
     mid_pulse_ms (motor s') = to_unsigned value /\
     min_pulse_ms (motor s') = min_pulse_ms (motor s) /\
     max_pulse_ms (motor s') = max_pulse_ms (motor s) /\
     same_but_pulses s s') /\
  (max_pulse_ms_store sscanf_u buf count s = Some (- EINVAL, s) \/
   exists value,
     sscanf_u buf = Some value /\ 2300 <= to_unsigned value <= 2700 /\
     let s' := {| motor := with_max_pulse_ms (to_unsigned value) (motor s);
                  calls := calls s |} in
     max_pulse_ms_store sscanf_u buf count s = Some (count, s') /\
     max_pulse_ms (motor s') = to_unsigned value /\
     min_pulse_ms (motor s') = min_pulse_ms (motor s) /\
     mid_pulse_ms (motor s') = mid_pulse_ms (motor s) /\
     same_but_pulses s s').
Proof.
  split; [| split; [| split; [| intros buf; split; [| split]]]].
  - intros buf H; unfold min_pulse_ms_store; rewrite H; reflexivity.
  - intros buf H; unfold mid_pulse_ms_store; rewrite H; reflexivity.
  - intros buf H; unfold max_pulse_ms_store; rewrite H; reflexivity.
  - apply min_pulse_ms_store_cases.
  - apply mid_pulse_ms_store_cases.
  - apply max_pulse_ms_store_cases.
Qed.

(** *** Reading the position attribute *)

Lemma driver_reading_int s : int_range (driver_reading s).
Proof. apply to_int_range. Qed.

(** [position_show] against the reading rule of the specification. *)
Lemma position_show_spec s (buf : string) :
  position_show dm buf s
  = match get_position_spec dm (motor s) (driver_reading s) with
    | Some (ReadError code) => Some ((code, buf), after_get_position s)
    | Some (Reported v) =>
      Some ((strlen (sprintf_d v), sprintf_d v), after_get_position s)
    | None => None
    end.
Proof.
  unfold position_show, get_position_spec.
  rewrite bind_get_position.
  pose proof (driver_reading_int s) as Hint.
  set (raw := driver_reading s) in *.
  destruct (Z.ltb_spec raw 0) as [Hneg | Hpos]; [reflexivity |].
  destruct (Z.eqb_spec raw 0) as [Hz | Hnz]; [step; reflexivity |].
  rewrite (to_unsigned_pos_int raw Hpos Hint).
  step. simpl.
  destruct (raw <? mid_pulse_ms (motor s)); step; simpl;
    unfold bind, lift;
    destruct (servo_motor_class_scale _ _ _ _ _ _); reflexivity.
Qed.

(** C2: in every state, [position_show] asks the driver for its raw pulse
    (once, and calls nothing else) and then: a negative answer is returned as
    it is, the buffer left alone; for raw = 0 the stored position is
    printed; for 0 < raw < mid_pulse the value
    scale(min_pulse, mid_pulse, -100, 0, raw) is printed; otherwise
    (raw >= mid_pulse) the value scale(mid_pulse, max_pulse, 0, 100, raw) is
    printed.  Where the scaling divides by zero there is no result. *)
Theorem position_show_reading s (buf : string) :
  let raw := driver_reading s in
  let m := motor s in
  let printed (v : option Z) :=
    match v with
    | Some v => Some ((strlen (sprintf_d v), sprintf_d v), after_get_position s)
    | None => None
    end in
  calls (after_get_position s) = calls s ++ [CallGetPosition] /\
  position_show dm buf s
  = if raw <? 0 then Some ((raw, buf), after_get_position s)
    else if raw =? 0 then printed (Some (position m))
    else if (0 <? raw) && (raw <? mid_pulse_ms m) then
      printed (servo_motor_class_scale dm (min_pulse_ms m) (mid_pulse_ms m)
                                       (-100) 0 raw)
    else
      printed (servo_motor_class_scale dm (mid_pulse_ms m) (max_pulse_ms m)
                                       0 100 raw).
Proof.
  intros raw m printed. split; [reflexivity |].
  rewrite position_show_spec. unfold get_position_spec. fold raw m.
  destruct (Z.ltb_spec raw 0) as [Hneg | Hpos]; [reflexivity |].
  destruct (Z.eqb_spec raw 0) as [Hz | Hnz]; [reflexivity |].
  destruct (Z.ltb_spec 0 raw); [| lia]. simpl.
  destruct (raw <? mid_pulse_ms m);
    destruct (servo_motor_class_scale _ _ _ _ _ _); reflexivity.
Qed.

(** C10 (amended): the reading is not clamped to [-100,100].  For a raw
    pulse above max_pulse, with 0 <= mid_pulse < max_pulse, as long as the
    arithmetic does not wrap, that is the product (raw - mid_pulse) * 100
    fits the [long] accumulator (below 2^32 for a 32-bit [long]; it always
    fits a 64-bit one) and the quotient fits an [int], [position_show]
    prints (raw - mid_pulse) * 100 / (max_pulse - mid_pulse), truncated;
    that value is at least 100, and it is above 100 exactly when
    100 * (raw - max_pulse) >= max_pulse - mid_pulse. *)
Theorem position_show_above_max s (buf : string) :
  0 <= mid_pulse_ms (motor s) < max_pulse_ms (motor s) ->
  max_pulse_ms (motor s) < driver_reading s ->
  (driver_reading s - mid_pulse_ms (motor s)) * 100 < product_limit dm ->
  (driver_reading s - mid_pulse_ms (motor s)) * 100
  ÷ (max_pulse_ms (motor s) - mid_pulse_ms (motor s)) <= INT_MAX ->
  let v := (driver_reading s - mid_pulse_ms (motor s)) * 100
           ÷ (max_pulse_ms (motor s) - mid_pulse_ms (motor s)) in
  position_show dm buf s
  = Some ((strlen (sprintf_d v), sprintf_d v), after_get_position s) /\
  100 <= v /\
  (100 < v <->
   max_pulse_ms (motor s) - mid_pulse_ms (motor s)
   <= 100 * (driver_reading s - max_pulse_ms (motor s))).
Proof.
  intros Hmid Hraw Hfit Hint v.
  pose proof (driver_reading_int s) as Hrange.
  revert Hrange Hint. unfold int_range, INT_MIN, INT_MAX. intros Hrange Hint.
  set (raw := driver_reading s) in *.
  set (mid := mid_pulse_ms (motor s)) in *.
  set (max := max_pulse_ms (motor s)) in *.
  assert (Hq : 0 <= (raw - mid) * 100 ÷ (max - mid) <= (raw - mid) * 100)
    by (apply quot_product_bounds; lia).
  assert (Hdiv : v = (raw - mid) * 100 / (max - mid))
    by (apply Z.quot_div_nonneg; lia).
  assert (Hlow : 100 <= v).
  { rewrite Hdiv. apply Z.div_le_lower_bound; lia. }
  split; [| split; [assumption |]].
  - rewrite position_show_spec. unfold get_position_spec.
    fold raw mid max.
    destruct (Z.ltb_spec raw 0); [lia |].
    destruct (Z.eqb_spec raw 0); [lia |].
    destruct (Z.ltb_spec raw mid); [lia |].
    assert (Hs : servo_motor_class_scale dm mid max 0 100 raw
                 = Some ((raw - mid) * (100 - 0) ÷ (max - mid) + 0)).
    { apply scale_no_overflow;
        unfold int_range, INT_MIN, INT_MAX;
        replace (100 - 0) with 100 by reflexivity;
        try assumption; lia. }
    rewrite Hs; simpl.
    replace ((raw - mid) * 100 ÷ (max - mid) + 0) with v by (unfold v; lia).
    reflexivity.
  - rewrite Hdiv. split.
    + intros Hv.
      pose proof (Z.mul_div_le ((raw - mid) * 100) (max - mid) ltac:(lia)).
      nia.
    + intros Hm.
      assert (101 <= (raw - mid) * 100 / (max - mid)); [| lia].
      apply Z.div_le_lower_bound; lia.
Qed.

Transparent servo_motor_class_scale.

End ClassFacts.

(** ** The callbacks on a concrete driver *)

Section Examples.

Import Demo.

Example float_to_run_fifty :
  observed (command_store ILP32 streq "run" 3 (floating normal 50 idle))
  = Some (3, 50, [CallSetPosition 1950]).
Proof. reflexivity. Qed.

Example run_to_float_thirty :
  observed (command_store ILP32 streq "float" 5 (running normal 30 idle))
  = Some (5, 30, [CallSetPosition 0]).
Proof. reflexivity. Qed.

Example position_store_150 :
  position_store ILP32 read_decimal "150" 3 (running normal 0 idle)
  = Some (- EINVAL, running normal 0 idle).
Proof. reflexivity. Qed.

Example position_store_minus_101 :
  position_store LP64 read_decimal "-101" 4 (running normal 0 idle)
  = Some (- EINVAL, running normal 0 idle).
Proof. reflexivity. Qed.

Example position_show_midway :
  option_map fst (position_show ILP32 "" (running normal 0 (driven 1050)))
  = Some (4, sprintf_d (-50)).
Proof. reflexivity. Qed.

(** C1 as stated fails: it names no polarity, and with inverted polarity a
    Float-to-Run transition with stored position 50 and the default pulses
    hands the driver scale(-100,0,600,1500,-50) = 1050, not 1950. *)
Lemma float_to_run_inverted_fifty :
  command (motor (floating inverted 50 idle)) = SERVO_MOTOR_COMMAND_FLOAT /\
  position (motor (floating inverted 50 idle)) = 50 /\
  default_pulses (motor (floating inverted 50 idle)) /\
  streq "run" "run" = true /\
  observed (command_store ILP32 streq "run" 3 (floating inverted 50 idle))
  = Some (3, 50, [CallSetPosition 1050]) /\
  observed (command_store LP64 streq "run" 3 (floating inverted 50 idle))
  = Some (3, 50, [CallSetPosition 1050]) /\
  [CallSetPosition 1050] <> [CallSetPosition 1950].
Proof.
  repeat split; try reflexivity. discriminate.
Qed.

(** With a 64-bit [long] the product never wraps, but for a narrow upper
    half of the pulse range the quotient can still leave the [int]: the
    reading then wraps on the way out. *)
Example position_show_quotient_wraps :
  option_map fst
    (position_show LP64 ""
       {| motor := {| name := "pwm-servo"; port_name := "out1"; ops := pwm_ops;
                      context := driven INT_MAX;
                      min_pulse_ms := 0; mid_pulse_ms := 1; max_pulse_ms := 2;
                      command := SERVO_MOTOR_COMMAND_RUN;
                      polarity := SERVO_MOTOR_POLARITY_NORMAL;
                      position := 0 |};
          calls := [] |})
  = Some (strlen (sprintf_d (-200)), sprintf_d (-200)).
Proof. reflexivity. Qed.

(** C4 as stated fails: the pulse for -40 is 1140, not 900. *)
Lemma inverted_forty_not_900 :
  servo_motor_class_scale ILP32 (-100) 0 600 1500 (-40) <> Some 900 /\
  servo_motor_class_scale LP64 (-100) 0 600 1500 (-40) <> Some 900 /\
  observed (servo_motor_class_set_position ILP32 40 inverted
              (running normal 0 idle))
  = Some (0, 40, [CallSetPosition 1140]) /\
  observed (command_store ILP32 streq "run" 3 (floating inverted 40 idle))
  = Some (3, 40, [CallSetPosition 1140]).
Proof. vm_compute; intuition congruence. Qed.

(** C5 as stated fails: the driver refuses the pulse, the error comes back,
    and the stored position has moved from 0 to 10 all the same. *)
Lemma position_moved_despite_error :
  read_decimal "10" = Some 10 /\
  position (motor (running normal 0 broken)) = 0 /\
  observed (position_store ILP32 read_decimal "10" 2 (running normal 0 broken))
  = Some (-5, 10, [CallSetPosition 1590]) /\
  observed (position_store LP64 read_decimal "10" 2 (running normal 0 broken))
  = Some (-5, 10, [CallSetPosition 1590]).
Proof. repeat split; reflexivity. Qed.

(** C10 as stated fails: with the default pulses a raw reading of 2401 is
    above max_pulse and is reported as 100, the division truncating; and
    with a 32-bit [long] a reading of 42951173 wraps in the product and is
    reported as 0. *)
Lemma reading_above_max_not_above_100 :
  mid_pulse_ms (motor (running normal 0 (driven 2401)))
  < max_pulse_ms (motor (running normal 0 (driven 2401))) /\
  max_pulse_ms (motor (running normal 0 (driven 2401)))
  < driver_reading (running normal 0 (driven 2401)) /\
  option_map fst (position_show ILP32 "" (running normal 0 (driven 2401)))
  = Some (strlen (sprintf_d 100), sprintf_d 100) /\
  option_map fst (position_show LP64 "" (running normal 0 (driven 2401)))
  = Some (strlen (sprintf_d 100), sprintf_d 100) /\
  max_pulse_ms (motor (running normal 0 (driven 42951173)))
  < driver_reading (running normal 0 (driven 42951173)) /\
  option_map fst (position_show ILP32 "" (running normal 0 (driven 42951173)))
  = Some (strlen (sprintf_d 0), sprintf_d 0) /\
  ~ 100 > 100 /\ ~ 0 > 100.
Proof. repeat split; try reflexivity; lia. Qed.

(** *** The theorems on the concrete driver *)

Lemma apply_position_scales_witness :
  command (motor (running normal 0 idle)) = SERVO_MOTOR_COMMAND_RUN /\
  command (motor (floating normal 50 idle)) = SERVO_MOTOR_COMMAND_FLOAT /\
  default_pulses (motor (floating normal 50 idle)) /\
  streq "run" "run" = true /\
  (exists pulse,
      servo_motor_class_scale ILP32 0 100 1500 2400 50 = Some pulse /\
      servo_motor_class_set_position ILP32 50 normal (running normal 0 idle)
      = Some (driver_answer (recorded (running normal 0 idle) 50 normal) pulse,
              after_set_position (recorded (running normal 0 idle) 50 normal)
                                 pulse)) /\
  (exists r s',
      command_store ILP32 streq "run" 3 (floating normal 50 idle) = Some (r, s') /\
      calls s' = [CallSetPosition 1950]).
Proof.
  destruct (apply_position_scales ILP32 pwm streq (running normal 0 idle)
              50 normal (floating normal 50 idle) "run" 3) as [H1 H2].
  split; [reflexivity |]. split; [reflexivity |].
  split; [repeat split |]. split; [reflexivity |].
  split.
  - destruct (H1 eq_refl) as (pulse & Hpos & _ & Hset).
    exists pulse. split; [apply Hpos; reflexivity | exact Hset].
  - apply H2; try reflexivity. repeat split.
Defined.

Lemma inverted_forty_pulse_witness :
  command (motor (running inverted 0 idle)) = SERVO_MOTOR_COMMAND_RUN /\
  default_pulses (motor (running inverted 0 idle)) /\
  servo_motor_class_set_position LP64 40 inverted (running inverted 0 idle)
  = Some (driver_answer (recorded (running inverted 0 idle) 40 inverted) 1140,
          after_set_position (recorded (running inverted 0 idle) 40 inverted)
                             1140).
Proof.
  split; [reflexivity |]. split; [repeat split |].
  destruct (inverted_forty_pulse LP64 pwm (running inverted 0 idle) eq_refl)
    as (_ & _ & _ & H); [repeat split | exact H].
Defined.

Lemma run_to_float_neutral_witness :
  command (motor (running normal 30 idle)) = SERVO_MOTOR_COMMAND_RUN /\
  streq "float" "run" = false /\ streq "float" "float" = true /\
  exists r s',
    command_store ILP32 streq "float" 5 (running normal 30 idle) = Some (r, s') /\
    calls s' = [CallSetPosition 0] /\ position (motor s') = 30.
Proof.
  repeat (split; [reflexivity |]).
  destruct (run_to_float_neutral ILP32 pwm streq (running normal 30 idle)
              "float" 5 eq_refl eq_refl eq_refl)
    as (r & s' & H & _ & Hcalls & Hpos & _).
  exists r, s'. repeat split; assumption.
Defined.

Lemma float_records_only_witness :
  command (motor (floating normal 0 idle)) = SERVO_MOTOR_COMMAND_FLOAT /\
  streq "run" "run" = true /\
  servo_motor_class_set_position ILP32 50 normal (floating normal 0 idle)
  = Some (0, recorded (floating normal 0 idle) 50 normal) /\
  calls (recorded (floating normal 0 idle) 50 normal) = [] /\
  exists pulse r s',
    apply_position_pulse ILP32 (motor (floating normal 0 idle)) 50 normal
    = Some pulse /\
    command_store ILP32 streq "run" 3 (recorded (floating normal 0 idle) 50 normal)
    = Some (r, s') /\
    calls s' = [CallSetPosition pulse].
Proof.
  destruct (float_records_only ILP32 pwm streq (floating normal 0 idle)
              50 normal eq_refl)
    as (H & _ & _ & Hcalls & _ & Hnext).
  split; [reflexivity |]. split; [reflexivity |].
  split; [assumption |]. split; [assumption |].
  destruct (Hnext "run"%string 3 eq_refl) as (pulse & r & s' & Hp & Hstore & Hc & _).
  exists pulse, r, s'. repeat split; assumption.
Defined.

Lemma position_store_records_first_witness :
  read_decimal "10" = Some 10 /\ -100 <= 10 <= 100 /\
  position (motor (running normal 0 broken)) <> 10 /\
  exists r s',
    position_store ILP32 read_decimal "10" 2 (running normal 0 broken)
    = Some (r, s') /\
    position (motor s') = 10.
Proof.
  split; [reflexivity |]. split; [lia |]. split; [discriminate |].
  destruct (position_store_records_first ILP32 pwm read_decimal
              (running normal 0 broken) "10" 2 10
              eq_refl ltac:(lia) ltac:(discriminate))
    as (r & s' & H & Hpos & _).
  exists r, s'. split; assumption.
Defined.

Lemma position_store_validates_witness :
  read_decimal "150" = Some 150 /\ int_range 150 /\ (150 > 100 \/ 150 < -100) /\
  read_decimal "20" = Some (position (motor (running normal 20 idle))) /\
  -100 <= position (motor (running normal 20 idle)) <= 100 /\
  position_store ILP32 read_decimal "150" 3 (running normal 20 idle)
  = Some (- EINVAL, running normal 20 idle) /\
  position_store ILP32 read_decimal "20" 3 (running normal 20 idle)
  = Some (3, running normal 20 idle).
Proof.
  assert (Hr : int_range 150) by (unfold int_range, INT_MIN, INT_MAX; lia).
  assert (Hp : -100 <= position (motor (running normal 20 idle)) <= 100)
    by (simpl; lia).
  split; [reflexivity |]. split; [exact Hr |]. split; [left; lia |].
  split; [reflexivity |]. split; [exact Hp |].
  destruct (position_store_validates ILP32 pwm read_decimal
              (running normal 20 idle) 3) as [Hout Hsame].
  split.
  - apply (Hout "150"%string 150); trivial; left; lia.
  - apply (Hsame "20"%string); trivial.
Defined.

Lemma pulse_bounds_validated_witness :
  read_unsigned "250" = Some 250 /\ read_unsigned "1800" = Some 1800 /\
  read_unsigned "2800" = Some 2800 /\
  min_pulse_ms_store read_unsigned "250" 3 (running normal 0 idle)
  = Some (- EINVAL, running normal 0 idle) /\
  mid_pulse_ms_store read_unsigned "1800" 3 (running normal 0 idle)
  = Some (- EINVAL, running normal 0 idle) /\
  max_pulse_ms_store read_unsigned "2800" 3 (running normal 0 idle)
  = Some (- EINVAL, running normal 0 idle).
Proof.
  destruct (pulse_bounds_validated pwm read_unsigned (running normal 0 idle) 3)
    as (Hmin & Hmid & Hmax & _).
  split; [reflexivity |]. split; [reflexivity |]. split; [reflexivity |].
  split; [apply Hmin; reflexivity |].
  split; [apply Hmid; reflexivity | apply Hmax; reflexivity].
Defined.

Lemma position_show_above_max_witness :
  0 <= mid_pulse_ms (motor (running normal 0 (driven 42951173)))
    < max_pulse_ms (motor (running normal 0 (driven 42951173))) /\
  max_pulse_ms (motor (running normal 0 (driven 42951173)))
  < driver_reading (running normal 0 (driven 42951173)) /\
  (driver_reading (running normal 0 (driven 42951173)) - 1500) * 100
  < product_limit LP64 /\
  (driver_reading (running normal 0 (driven 42951172)) - 1500) * 100
  < product_limit ILP32 /\
  position_show LP64 "" (running normal 0 (driven 42951173))
  = Some ((strlen (sprintf_d 4772185), sprintf_d 4772185),
          after_get_position (running normal 0 (driven 42951173))) /\
  position_show ILP32 "" (running normal 0 (driven 42951172))
  = Some ((strlen (sprintf_d 4772185), sprintf_d 4772185),
          after_get_position (running normal 0 (driven 42951172))) /\
  position_show ILP32 "" (running normal 0 (driven 2409))
  = Some ((strlen (sprintf_d 101), sprintf_d 101),
          after_get_position (running normal 0 (driven 2409))).
Proof.
  assert (Hmid : forall raw,
             0 <= mid_pulse_ms (motor (running normal 0 (driven raw)))
             < max_pulse_ms (motor (running normal 0 (driven raw))))
    by (intros raw; simpl; lia).
  assert (H64 : (driver_reading (running normal 0 (driven 42951173)) - 1500)
                * 100 < product_limit LP64) by reflexivity.
  assert (H32 : (driver_reading (running normal 0 (driven 42951172)) - 1500)
                * 100 < product_limit ILP32) by reflexivity.
  split; [apply Hmid |]. split; [reflexivity |].
  split; [exact H64 |]. split; [exact H32 |].
  split; [| split].
  - destruct (position_show_above_max LP64 pwm
                (running normal 0 (driven 42951173)) "" (Hmid _)
                ltac:(reflexivity) H64 ltac:(discriminate)) as (H & _).
    exact H.
  - destruct (position_show_above_max ILP32 pwm
                (running normal 0 (driven 42951172)) "" (Hmid _)
                ltac:(reflexivity) H32 ltac:(discriminate)) as (H & _).
    exact H.
  - destruct (position_show_above_max ILP32 pwm
                (running normal 0 (driven 2409)) "" (Hmid _)
                ltac:(reflexivity) ltac:(reflexivity) ltac:(discriminate))
      as (H & _).
    exact H.
Defined.

End Examples.

(** ** More on the scaling helper *)

Section ScaleMore.

Variable dm : data_model.
Variables in_min in_max out_min out_max : Z.

Hypothesis in_min_int : int_range in_min.
Hypothesis in_max_int : int_range in_max.
Hypothesis out_min_int : int_range out_min.
Hypothesis out_max_int : int_range out_max.

(** The helper between [int] bounds, on a value whose product fits. *)
Lemma scale_exact (value : Z) :
  in_min < in_max -> in_min <= value <= in_max -> out_min <= out_max ->
  (value - in_min) * (out_max - out_min) < product_limit dm ->
  servo_motor_class_scale dm in_min in_max out_min out_max value
  = Some ((value - in_min) * (out_max - out_min) ÷ (in_max - in_min) + out_min)
  /\ 0 <= (value - in_min) * (out_max - out_min) ÷ (in_max - in_min)
       <= out_max - out_min.
Proof.
  revert in_min_int in_max_int out_min_int out_max_int.
  unfold int_range, INT_MIN, INT_MAX.
  intros Himin Himax Homin Homax Hin Hval Hout Hprod.
  pose proof (quot_product_bounds (value - in_min) (out_max - out_min)
                (in_max - in_min) ltac:(lia) ltac:(lia) ltac:(lia)).
  pose proof (quot_product_le_factor (value - in_min) (out_max - out_min)
                (in_max - in_min) ltac:(lia) ltac:(lia) ltac:(lia)).
  split; [| lia].
  apply scale_no_overflow; unfold int_range, INT_MIN, INT_MAX; lia.
Qed.

(** X1: between [int] bounds [servo_motor_class_scale] has no result (it
    divides by zero) exactly when the input range is empty, in_max = in_min,
    whatever the other arguments. *)
Theorem scale_undefined_iff (value : Z) :
  servo_motor_class_scale dm in_min in_max out_min out_max value = None
  <-> in_max = in_min.
Proof.
  revert in_min_int in_max_int. unfold int_range, INT_MIN, INT_MAX.
  intros Himin Himax.
  unfold servo_motor_class_scale.
  assert (E : to_unsigned (to_unsigned in_max - to_unsigned in_min)
              = (in_max - in_min) mod 2 ^ 32)
    by (unfold to_unsigned; rewrite wrap_unsigned_sub; reflexivity).
  rewrite E.
  destruct (Z.eqb_spec ((in_max - in_min) mod 2 ^ 32) 0) as [Hz | Hnz].
  - split; [intros _ | reflexivity].
    apply Z.mod_divide in Hz; [| lia].
    destruct Hz as [k Hk].
    assert (k = 0) by lia. lia.
  - split; [discriminate |].
    intros ->. exfalso. apply Hnz.
    replace (in_min - in_min) with 0 by lia. reflexivity.
Qed.

(** X2: for [int] bounds with in_min < in_max and out_min <= out_max, a
    value of the input range and a product that fits,
    [servo_motor_class_scale] returns a value of the output range: out_min
    for in_min and out_max for in_max. *)
Theorem scale_range (value : Z) :
  in_min < in_max -> in_min <= value <= in_max -> out_min <= out_max ->
  (value - in_min) * (out_max - out_min) < product_limit dm ->
  exists v,
    servo_motor_class_scale dm in_min in_max out_min out_max value = Some v /\
    out_min <= v <= out_max /\
    (value = in_min -> v = out_min) /\
    (value = in_max -> v = out_max).
Proof.
  intros Hin Hval Hout Hprod.
  destruct (scale_exact value Hin Hval Hout Hprod) as [E Hq].
  eexists; split; [exact E |].
  split; [lia |]. split.
  - intros ->. replace (in_min - in_min) with 0 by lia.
    rewrite Z.mul_0_l, Z.quot_0_l by lia. lia.
  - intros ->. rewrite Z.mul_comm, Z.quot_mul by lia. lia.
Qed.

(** X3: under the same conditions [servo_motor_class_scale] is monotone: a
    larger value of the input range never gets a smaller result. *)
Theorem scale_monotone (value value' : Z) :
  in_min < in_max -> in_min <= value -> value <= value' -> value' <= in_max ->
  out_min <= out_max ->
  (value' - in_min) * (out_max - out_min) < product_limit dm ->
  exists v v',
    servo_motor_class_scale dm in_min in_max out_min out_max value = Some v /\
    servo_motor_class_scale dm in_min in_max out_min out_max value' = Some v' /\
    v <= v'.
Proof.
  intros Hin Hlo Hle Hhi Hout Hprod.
  assert (Hmono : (value - in_min) * (out_max - out_min)
                  <= (value' - in_min) * (out_max - out_min))
    by (apply Z.mul_le_mono_nonneg_r; lia).
  destruct (scale_exact value Hin ltac:(lia) Hout ltac:(lia)) as [E _].
  destruct (scale_exact value' Hin ltac:(lia) Hout Hprod) as [E' _].
  eexists; eexists; split; [exact E |]. split; [exact E' |].
  apply Z.add_le_mono_r.
  apply Z.quot_le_mono; lia.
Qed.

End ScaleMore.

(** ** The pulses sent and the percentages read *)

(** Truncated quotients of a percentage of a span. *)
Lemma percent_of_span (k span : Z) :
  0 <= k <= 100 -> 100 <= span ->
  0 <= k * span ÷ 100 <= span /\
  (1 <= k -> 1 <= k * span ÷ 100) /\
  (k <= 99 -> k * span ÷ 100 < span) /\
  (k = 0 -> k * span ÷ 100 = 0) /\
  (k = 100 -> k * span ÷ 100 = span).
Proof.
  intros Hk Hspan.
  assert (Hks : 0 <= k * span) by (apply Z.mul_nonneg_nonneg; lia).
  rewrite Z.quot_div_nonneg by lia.
  pose proof (Z.mul_div_le (k * span) 100 ltac:(lia)) as Hle.
  pose proof (Z.mul_succ_div_gt (k * span) 100 ltac:(lia)) as Hgt.
  repeat split; intros; nia.
Qed.

(** Scaling down by a span of at least 100 and up again loses less than one
    percent. *)
Lemma percent_round_trip (k span : Z) :
  0 <= k <= 100 -> 100 <= span ->
  k - 1 <= (k * span ÷ 100) * 100 ÷ span <= k.
Proof.
  intros Hk Hspan.
  assert (Hks : 0 <= k * span) by (apply Z.mul_nonneg_nonneg; lia).
  rewrite (Z.quot_div_nonneg (k * span)) by lia.
  pose proof (Z.mul_div_le (k * span) 100 ltac:(lia)) as Hle.
  pose proof (Z.mul_succ_div_gt (k * span) 100 ltac:(lia)) as Hgt.
  set (q := k * span / 100) in *.
  assert (Hq : 0 <= q) by (apply Z.div_pos; lia).
  rewrite Z.quot_div_nonneg by lia.
  split.
  - apply Z.div_le_lower_bound; nia.
  - apply Z.div_le_upper_bound; nia.
Qed.

Section PulseFacts.

Variable dm : data_model.
Variable ctx : Type.

Implicit Type m : servo_motor_device ctx.
Implicit Type s : machine ctx.

Lemma product_limit_large : 2 ^ 32 <= product_limit dm.
Proof. destruct dm; simpl; lia. Qed.

(** Under valid pulse bounds the write side computes [pulse_value]. *)
Lemma apply_position_pulse_value m (percent : Z) (pol : servo_motor_polarity) :
  pulses_valid m -> -100 <= percent <= 100 ->
  apply_position_pulse dm m percent pol
  = Some (pulse_value m (effective_percent percent pol)).
Proof.
  intros (Hmin & Hmid & Hmax) Hp.
  pose proof product_limit_large as Hlim.
  assert (Heff : (match pol with
                  | SERVO_MOTOR_POLARITY_NORMAL => percent
                  | SERVO_MOTOR_POLARITY_INVERTED => to_int (- percent)
                  end) = effective_percent percent pol).
  { destruct pol; simpl; [reflexivity |].
    apply to_int_small; unfold int_range, INT_MIN, INT_MAX; lia. }
  unfold apply_position_pulse, pulse_value. rewrite Heff.
  assert (Hrange : -100 <= effective_percent percent pol <= 100)
    by (destruct pol; simpl; lia).
  set (p := effective_percent percent pol) in *.
  destruct (Z.ltb_spec 0 p) as [Hpos | Hneg].
  - destruct (percent_of_span p (max_pulse_ms m - mid_pulse_ms m)
                ltac:(lia) ltac:(lia)) as (Hq & _).
    rewrite (scale_no_overflow dm 0 100 (mid_pulse_ms m) (max_pulse_ms m) p);
      unfold int_range, INT_MIN, INT_MAX;
      replace (p - 0) with p by lia; replace (100 - 0) with 100 by lia;
      try lia; try reflexivity; nia.
  - destruct (percent_of_span (p + 100) (mid_pulse_ms m - min_pulse_ms m)
                ltac:(lia) ltac:(lia)) as (Hq & _).
    rewrite (scale_no_overflow dm (-100) 0 (min_pulse_ms m) (mid_pulse_ms m) p);
      unfold int_range, INT_MIN, INT_MAX;
      replace (p - -100) with (p + 100) by lia;
      replace (0 - -100) with 100 by lia;
      try lia; try reflexivity; nia.
Qed.

(** Where [pulse_value] lies. *)
Lemma pulse_value_bounds m (p : Z) :
  pulses_valid m -> -100 <= p <= 100 ->
  min_pulse_ms m <= pulse_value m p <= max_pulse_ms m /\
  (p < 0 -> pulse_value m p < mid_pulse_ms m) /\
  (p = 0 -> pulse_value m p = mid_pulse_ms m) /\
  (0 < p -> mid_pulse_ms m < pulse_value m p) /\
  (p = -100 -> pulse_value m p = min_pulse_ms m) /\
  (p = 100 -> pulse_value m p = max_pulse_ms m).
Proof.
  intros (Hmin & Hmid & Hmax) Hp. unfold pulse_value.
  destruct (Z.ltb_spec 0 p) as [Hpos | Hneg].
  - destruct (percent_of_span p (max_pulse_ms m - mid_pulse_ms m)
                ltac:(lia) ltac:(lia)) as (Hq & H1 & _ & _ & H100).
    repeat split; intros; lia.
  - destruct (percent_of_span (p + 100) (mid_pulse_ms m - min_pulse_ms m)
                ltac:(lia) ltac:(lia)) as (Hq & _ & H99 & H0 & H100).
    repeat split; intros; lia.
Qed.

Lemma pulse_value_monotone m (p p' : Z) :
  pulses_valid m -> -100 <= p -> p <= p' -> p' <= 100 ->
  pulse_value m p <= pulse_value m p'.
Proof.
  intros Hv Hlo Hle Hhi.
  destruct (pulse_value_bounds m p Hv ltac:(lia)) as (Hb & Hneg & Hz & Hpos & _).
  destruct (pulse_value_bounds m p' Hv ltac:(lia))
    as (Hb' & Hneg' & Hz' & Hpos' & _).
  destruct Hv as (Hmin & Hmid & Hmax).
  unfold pulse_value in *.
  destruct (Z.ltb_spec 0 p); destruct (Z.ltb_spec 0 p'); try lia.
  - apply Z.add_le_mono_r. apply Z.quot_le_mono; [lia |].
    apply Z.mul_le_mono_nonneg_r; lia.
  - apply Z.add_le_mono_r. apply Z.quot_le_mono; [lia |].
    apply Z.mul_le_mono_nonneg_r; lia.
Qed.

(** X4: while running, with valid pulse bounds and a percentage in
    [-100,100], the pulse handed to the driver lies between min_pulse and
    max_pulse: below mid_pulse for a negative effective percentage, mid_pulse
    for 0, above it for a positive one, min_pulse for -100 and max_pulse for
    100; inverted polarity swaps the two ends, as the attribute documentation
    says. *)
Theorem pulse_within_bounds s (percent : Z) (pol : servo_motor_polarity) :
  command (motor s) = SERVO_MOTOR_COMMAND_RUN ->
  pulses_valid (motor s) -> -100 <= percent <= 100 ->
  let p := effective_percent percent pol in
  exists pulse,
    servo_motor_class_set_position dm percent pol s
    = Some (driver_answer (recorded s percent pol) pulse,
            after_set_position (recorded s percent pol) pulse) /\
    min_pulse_ms (motor s) <= pulse <= max_pulse_ms (motor s) /\
    (p < 0 -> pulse < mid_pulse_ms (motor s)) /\
    (p = 0 -> pulse = mid_pulse_ms (motor s)) /\
    (0 < p -> mid_pulse_ms (motor s) < pulse) /\
    (p = -100 -> pulse = min_pulse_ms (motor s)) /\
    (p = 100 -> pulse = max_pulse_ms (motor s)).
Proof.
  intros Hc Hv Hp p.
  exists (pulse_value (motor s) p). split.
  - apply set_position_run; [assumption |].
    apply apply_position_pulse_value; assumption.
  - apply pulse_value_bounds; [assumption |].
    unfold p; destruct pol; simpl; lia.
Qed.

(** X5: while running, with valid pulse bounds, a larger percentage never
    gets a smaller pulse under normal polarity, and never a larger one under
    inverted polarity. *)
Theorem pulse_monotone s (percent percent' : Z) (pol : servo_motor_polarity) :
  command (motor s) = SERVO_MOTOR_COMMAND_RUN ->
  pulses_valid (motor s) ->
  -100 <= percent -> percent <= percent' -> percent' <= 100 ->
  exists pulse pulse',
    servo_motor_class_set_position dm percent pol s
    = Some (driver_answer (recorded s percent pol) pulse,
            after_set_position (recorded s percent pol) pulse) /\
    servo_motor_class_set_position dm percent' pol s
    = Some (driver_answer (recorded s percent' pol) pulse',
            after_set_position (recorded s percent' pol) pulse') /\
    match pol with
    | SERVO_MOTOR_POLARITY_NORMAL => pulse <= pulse'
    | SERVO_MOTOR_POLARITY_INVERTED => pulse' <= pulse
    end.
Proof.
  intros Hc Hv Hlo Hle Hhi.
  exists (pulse_value (motor s) (effective_percent percent pol)).
  exists (pulse_value (motor s) (effective_percent percent' pol)).
  split; [| split].
  - apply set_position_run; [assumption |].
    apply apply_position_pulse_value; [assumption | lia].
  - apply set_position_run; [assumption |].
    apply apply_position_pulse_value; [assumption | lia].
  - destruct pol; simpl; apply pulse_value_monotone; trivial; lia.
Qed.

End PulseFacts.

(** The helper has a result whenever the input range is not empty. *)
Lemma scale_defined (dm : data_model) (in_min in_max out_min out_max value : Z) :
  (in_max - in_min) mod 2 ^ 32 <> 0 ->
  exists v,
    servo_motor_class_scale dm in_min in_max out_min out_max value = Some v.
Proof.
  intros Hnz. unfold servo_motor_class_scale.
  assert (E : to_unsigned (to_unsigned in_max - to_unsigned in_min)
              = (in_max - in_min) mod 2 ^ 32)
    by (unfold to_unsigned; rewrite wrap_unsigned_sub; reflexivity).
  rewrite E.
  destruct (Z.eqb_spec ((in_max - in_min) mod 2 ^ 32) 0); [contradiction |].
  eexists; reflexivity.
Qed.

Section ReadFacts.

Variable dm : data_model.
Variable ctx : Type.
Variable sscanf_d : string -> option Z.

Implicit Type m : servo_motor_device ctx.
Implicit Type s : machine ctx.

(** Where [percent_value] lies for a pulse between the bounds. *)
Lemma percent_value_bounds m (raw : Z) :
  pulses_valid m -> min_pulse_ms m <= raw <= max_pulse_ms m ->
  -100 <= percent_value m raw <= 100 /\
  (raw < mid_pulse_ms m -> percent_value m raw < 0) /\
  (mid_pulse_ms m <= raw -> 0 <= percent_value m raw) /\
  (raw = min_pulse_ms m -> percent_value m raw = -100) /\
  (raw = mid_pulse_ms m -> percent_value m raw = 0) /\
  (raw = max_pulse_ms m -> percent_value m raw = 100).
Proof.
  intros (Hmin & Hmid & Hmax) Hraw. unfold percent_value.
  destruct (Z.ltb_spec raw (mid_pulse_ms m)) as [Hlt | Hge].
  - set (span := mid_pulse_ms m - min_pulse_ms m).
    set (a := raw - min_pulse_ms m).
    assert (Ha : 0 <= a < span) by (unfold a, span; lia).
    rewrite Z.quot_div_nonneg by lia.
    assert (Hq : 0 <= a * 100 / span < 100).
    { split; [apply Z.div_pos; lia | apply Z.div_lt_upper_bound; lia]. }
    assert (H0 : a = 0 -> a * 100 / span = 0) by (intros ->; reflexivity).
    repeat split; intros; lia.
  - set (span := max_pulse_ms m - mid_pulse_ms m).
    set (a := raw - mid_pulse_ms m).
    assert (Ha : 0 <= a <= span) by (unfold a, span; lia).
    assert (Hs : 0 < span) by (unfold span; lia).
    rewrite Z.quot_div_nonneg by lia.
    assert (Hq : 0 <= a * 100 / span <= 100).
    { split; [apply Z.div_pos; lia | apply Z.div_le_upper_bound; lia]. }
    assert (H0 : a = 0 -> a * 100 / span = 0) by (intros ->; reflexivity).
    assert (H1 : a = span -> a * 100 / span = 100)
      by (intros ->; rewrite Z.mul_comm; apply Z.div_mul; lia).
    repeat split; intros; lia.
Qed.

(** Under valid pulse bounds a raw pulse between them is printed as
    [percent_value]. *)
Lemma position_show_value s (buf : string) :
  pulses_valid (motor s) ->
  min_pulse_ms (motor s) <= driver_reading s <= max_pulse_ms (motor s) ->
  position_show dm buf s
  = Some ((strlen (sprintf_d (percent_value (motor s) (driver_reading s))),
           sprintf_d (percent_value (motor s) (driver_reading s))),
          after_get_position s).
Proof.
  intros Hv Hraw.
  destruct (percent_value_bounds (motor s) (driver_reading s) Hv Hraw)
    as (Hb & _).
  destruct Hv as (Hmin & Hmid & Hmax).
  pose proof (product_limit_large dm) as Hlim.
  rewrite position_show_spec. unfold get_position_spec.
  revert Hb. unfold percent_value.
  set (raw := driver_reading s) in *.
  destruct (Z.ltb_spec raw 0); [lia |].
  destruct (Z.eqb_spec raw 0); [lia |].
  destruct (Z.ltb_spec raw (mid_pulse_ms (motor s))); intros Hb.
  - rewrite (scale_no_overflow dm (min_pulse_ms (motor s))
               (mid_pulse_ms (motor s)) (-100) 0 raw);
      unfold int_range, INT_MIN, INT_MAX;
      replace (0 - -100) with 100 by lia; try lia.
    reflexivity.
  - rewrite (scale_no_overflow dm (mid_pulse_ms (motor s))
               (max_pulse_ms (motor s)) 0 100 raw);
      unfold int_range, INT_MIN, INT_MAX;
      replace (100 - 0) with 100 by lia; try lia.
    simpl. rewrite Z.add_0_r. reflexivity.
Qed.

(** Reading back the pulse of a percentage loses less than one percent. *)
Lemma percent_of_pulse m (p : Z) :
  pulses_valid m -> -100 <= p <= 100 ->
  p - 1 <= percent_value m (pulse_value m p) <= p.
Proof.
  intros Hv Hp.
  destruct (pulse_value_bounds ctx m p Hv Hp) as (_ & Hneg & Hz & Hpos & _).
  destruct Hv as (Hmin & Hmid & Hmax).
  unfold percent_value.
  destruct (Z.ltb_spec (pulse_value m p) (mid_pulse_ms m)) as [Hlt | Hge].
  - assert (Hp' : p < 0) by lia.
    unfold pulse_value. destruct (Z.ltb_spec 0 p); [lia |].
    replace ((p + 100) * (mid_pulse_ms m - min_pulse_ms m) ÷ 100
             + min_pulse_ms m - min_pulse_ms m)
      with ((p + 100) * (mid_pulse_ms m - min_pulse_ms m) ÷ 100) by lia.
    pose proof (percent_round_trip (p + 100) (mid_pulse_ms m - min_pulse_ms m)
                  ltac:(lia) ltac:(lia)).
    lia.
  - assert (Hp' : 0 <= p) by lia.
    destruct (Z.eq_dec p 0) as [-> | Hnz].
    + rewrite (Hz eq_refl).
      replace (mid_pulse_ms m - mid_pulse_ms m) with 0 by lia.
      rewrite Z.mul_0_l, Z.quot_0_l by lia. lia.
    + unfold pulse_value. destruct (Z.ltb_spec 0 p); [| lia].
      replace (p * (max_pulse_ms m - mid_pulse_ms m) ÷ 100
               + mid_pulse_ms m - mid_pulse_ms m)
        with (p * (max_pulse_ms m - mid_pulse_ms m) ÷ 100) by lia.
      apply percent_round_trip; lia.
Qed.

(** The read side has a result as soon as neither half of the pulse range
    is empty. *)
Lemma position_show_defined s (buf : string) :
  (mid_pulse_ms (motor s) - min_pulse_ms (motor s)) mod 2 ^ 32 <> 0 ->
  (max_pulse_ms (motor s) - mid_pulse_ms (motor s)) mod 2 ^ 32 <> 0 ->
  exists r, position_show dm buf s = Some (r, after_get_position s).
Proof.
  intros Hlow Hhigh.
  rewrite position_show_spec. unfold get_position_spec.
  destruct (driver_reading s <? 0); [eexists; reflexivity |].
  destruct (driver_reading s =? 0); [eexists; reflexivity |].
  destruct (driver_reading s <? mid_pulse_ms (motor s)).
  - destruct (scale_defined dm (min_pulse_ms (motor s)) (mid_pulse_ms (motor s))
                (-100) 0 (driver_reading s) Hlow) as [v Hs].
    rewrite Hs; eexists; reflexivity.
  - destruct (scale_defined dm (mid_pulse_ms (motor s)) (max_pulse_ms (motor s))
                0 100 (driver_reading s) Hhigh) as [v Hs].
    rewrite Hs; eexists; reflexivity.
Qed.

Lemma pulses_valid_spans (m : servo_motor_device ctx) :
  pulses_valid m ->
  (mid_pulse_ms m - min_pulse_ms m) mod 2 ^ 32 <> 0 /\
  (max_pulse_ms m - mid_pulse_ms m) mod 2 ^ 32 <> 0.
Proof.
  intros (Hmin & Hmid & Hmax).
  split; rewrite Z.mod_small; lia.
Qed.

(** X6: with valid pulse bounds [position_show] always has a result (it
    never divides by zero), asks the driver for its position exactly once
    and changes no field of the motor. *)
Theorem position_show_total s (buf : string) :
  pulses_valid (motor s) ->
  exists r,
    position_show dm buf s = Some (r, after_get_position s) /\
    calls (after_get_position s) = calls s ++ [CallGetPosition] /\
    same_pulses s (after_get_position s) /\
    command (motor (after_get_position s)) = command (motor s) /\
    polarity (motor (after_get_position s)) = polarity (motor s) /\
    position (motor (after_get_position s)) = position (motor s).
Proof.
  intros Hv.
  destruct (pulses_valid_spans (motor s) Hv) as [Hlow Hhigh].
  destruct (position_show_defined s buf Hlow Hhigh) as [r E].
  exists r. split; [exact E |].
  unfold same_pulses; simpl. repeat split; reflexivity.
Qed.

(** X7: with valid pulse bounds a raw pulse between min_pulse and max_pulse
    is printed as a percentage in [-100,100]: negative below mid_pulse, not
    negative from mid_pulse on, -100 at min_pulse, 0 at mid_pulse and 100 at
    max_pulse. *)
Theorem position_show_in_range s (buf : string) :
  pulses_valid (motor s) ->
  min_pulse_ms (motor s) <= driver_reading s <= max_pulse_ms (motor s) ->
  exists v,
    position_show dm buf s
    = Some ((strlen (sprintf_d v), sprintf_d v), after_get_position s) /\
    -100 <= v <= 100 /\
    (driver_reading s < mid_pulse_ms (motor s) -> v < 0) /\
    (mid_pulse_ms (motor s) <= driver_reading s -> 0 <= v) /\
    (driver_reading s = min_pulse_ms (motor s) -> v = -100) /\
    (driver_reading s = mid_pulse_ms (motor s) -> v = 0) /\
    (driver_reading s = max_pulse_ms (motor s) -> v = 100).
Proof.
  intros Hv Hraw.
  exists (percent_value (motor s) (driver_reading s)).
  split; [apply position_show_value; assumption |].
  apply percent_value_bounds; assumption.
Qed.

(** X8: with valid pulse bounds, while running, on a driver that accepts the
    pulse and reports it back, writing a new position p in [-100,100] and
    then reading the position gives p or p - 1 under normal polarity, and
    -p or -p - 1 under inverted polarity: the read side does not undo the
    inversion. *)
Theorem position_round_trip s (buf : string) (count value : Z) (out : string) :
  command (motor s) = SERVO_MOTOR_COMMAND_RUN ->
  pulses_valid (motor s) ->
  sscanf_d buf = Some value -> -100 <= value <= 100 ->
  position (motor s) <> value ->
  let p := effective_percent value (polarity (motor s)) in
  let pulse := pulse_value (motor s) p in
  let sent := after_set_position (recorded s value (polarity (motor s))) pulse in
  driver_answer (recorded s value (polarity (motor s))) pulse = 0 ->
  driver_reading sent = pulse ->
  exists v,
    position_store dm sscanf_d buf count s = Some (count, sent) /\
    position_show dm out sent
    = Some ((strlen (sprintf_d v), sprintf_d v), after_get_position sent) /\
    p - 1 <= v <= p.
Proof.
  intros Hc Hv Hscan Hin Hne p pulse sent Hok Hecho.
  assert (Hp : -100 <= p <= 100)
    by (unfold p; destruct (polarity (motor s)); simpl; lia).
  assert (Hv' : pulses_valid (motor sent)) by exact Hv.
  destruct (pulse_value_bounds ctx (motor s) p Hv Hp) as (Hb & _).
  exists (percent_value (motor sent) (driver_reading sent)).
  split; [| split].
  - rewrite (position_store_accepts dm ctx sscanf_d s buf count value Hscan Hin).
    destruct (Z.eqb_spec (position (motor s)) value); [contradiction |].
    unfold bind.
    rewrite (set_position_run dm ctx s value (polarity (motor s)) pulse Hc
               (apply_position_pulse_value dm ctx (motor s) value
                  (polarity (motor s)) Hv Hin)).
    rewrite Hok. reflexivity.
  - apply position_show_value; [exact Hv' |].
    rewrite Hecho. exact Hb.
  - rewrite Hecho.
    change (percent_value (motor sent) pulse)
      with (percent_value (motor s) pulse).
    apply percent_of_pulse; assumption.
Qed.

End ReadFacts.

(** ** Writing the command and the polarity *)

Section KeywordFacts.

Variable dm : data_model.
Variable ctx : Type.
Variable sysfs_streq : string -> string -> bool.

Implicit Type s : machine ctx.

Lemma written_command_cases (buf : string) :
  match written_command sysfs_streq buf with
  | Some SERVO_MOTOR_COMMAND_RUN => sysfs_streq buf "run" = true
  | Some SERVO_MOTOR_COMMAND_FLOAT =>
    sysfs_streq buf "run" = false /\ sysfs_streq buf "float" = true
  | None => sysfs_streq buf "run" = false /\ sysfs_streq buf "float" = false
  end.
Proof.
  unfold written_command, all_commands; simpl.
  destruct (sysfs_streq buf "run"); [reflexivity |].
  destruct (sysfs_streq buf "float"); split; reflexivity.
Qed.

Lemma written_polarity_cases (buf : string) :
  match written_polarity sysfs_streq buf with
  | Some SERVO_MOTOR_POLARITY_NORMAL => sysfs_streq buf "normal" = true
  | Some SERVO_MOTOR_POLARITY_INVERTED =>
    sysfs_streq buf "normal" = false /\ sysfs_streq buf "inverted" = true
  | None =>
    sysfs_streq buf "normal" = false /\ sysfs_streq buf "inverted" = false
  end.
Proof.
  unfold written_polarity, all_polarities; simpl.
  destruct (sysfs_streq buf "normal"); [reflexivity |].
  destruct (sysfs_streq buf "inverted"); split; reflexivity.
Qed.

(** A command write that names no command. *)
Lemma command_store_unknown s (buf : string) (size : Z) :
  written_command sysfs_streq buf = None ->
  command_store dm sysfs_streq buf size s = Some (- EINVAL, s).
Proof.
  intros E. pose proof (written_command_cases buf) as H. rewrite E in H.
  destruct H as [Hrun Hfloat].
  unfold command_store, all_commands, command_store_from; simpl.
  rewrite Hrun, Hfloat. reflexivity.
Qed.

(** A command write that names the command the motor has. *)
Lemma command_store_same s (buf : string) (size : Z) :
  written_command sysfs_streq buf = Some (command (motor s)) ->
  command_store dm sysfs_streq buf size s = Some (size, s).
Proof.
  intros E. pose proof (written_command_cases buf) as H. rewrite E in H.
  unfold command_store, all_commands, command_store_from; simpl.
  destruct (command (motor s)) eqn:Hc.
  - rewrite H; simpl. step. rewrite Hc. reflexivity.
  - destruct H as [Hrun Hfloat]. rewrite Hrun, Hfloat; simpl.
    step. rewrite Hc. reflexivity.
Qed.

(** X9: a command write that names no command returns -EINVAL, and one that
    names the command the motor already has returns the size; in both cases
    the state is as it was and the driver is not called. *)
Theorem command_store_idle s (buf : string) (size : Z) :
  (written_command sysfs_streq buf = None ->
   command_store dm sysfs_streq buf size s = Some (- EINVAL, s)) /\
  (written_command sysfs_streq buf = Some (command (motor s)) ->
   command_store dm sysfs_streq buf size s = Some (size, s)).
Proof.
  split.
  - apply command_store_unknown.
  - apply command_store_same.
Qed.

(** X10: a command write that names the other command sets the command
    field first and then calls the driver once: with 0 for float, with the
    pulse of the stored position for run.  A non-zero answer of the driver is
    returned, but the command field keeps the written value, which
    [command_show] then prints; position, polarity and pulse bounds are
    untouched. *)
Theorem command_store_switches s (buf : string) (size : Z)
        (c : servo_motor_command) (out : string) :
  written_command sysfs_streq buf = Some c ->
  c <> command (motor s) ->
  exists arg,
    match c with
    | SERVO_MOTOR_COMMAND_FLOAT => arg = 0
    | SERVO_MOTOR_COMMAND_RUN =>
      apply_position_pulse dm (motor s) (position (motor s)) (polarity (motor s))
      = Some arg
    end /\
    let s' := after_set_position (commanded s c) arg in
    command_store dm sysfs_streq buf size s
    = Some (status (driver_answer (commanded s c) arg) size, s') /\
    calls s' = calls s ++ [CallSetPosition arg] /\
    command (motor s') = c /\
    command_show out s'
    = Some ((strlen (sprintf_s (servo_motor_command_values c)),
             sprintf_s (servo_motor_command_values c)), s').
Proof.
  intros E Hne.
  pose proof (written_command_cases buf) as H. rewrite E in H.
  destruct c.
  - destruct (command (motor s)) eqn:Hc; [congruence |].
    destruct (apply_position_pulse_defined dm ctx (motor s)
                (position (motor s)) (polarity (motor s))) as [pulse Hp].
    exists pulse. split; [exact Hp |].
    split; [| repeat split].
    apply command_store_float_to_run; assumption.
  - destruct (command (motor s)) eqn:Hc; [| congruence].
    destruct H as [Hrun Hfloat].
    exists 0. split; [reflexivity |].
    split; [| repeat split].
    apply command_store_run_to_float; assumption.
Qed.

(** A polarity write that names no polarity. *)
Lemma polarity_store_unknown s (buf : string) (size : Z) :
  written_polarity sysfs_streq buf = None ->
  polarity_store dm sysfs_streq buf size s = Some (- EINVAL, s).
Proof.
  intros E. pose proof (written_polarity_cases buf) as H. rewrite E in H.
  destruct H as [Hn Hi].
  unfold polarity_store, all_polarities, polarity_store_from; simpl.
  rewrite Hn, Hi. reflexivity.
Qed.

(** A polarity write that names the polarity the motor has. *)
Lemma polarity_store_same s (buf : string) (size : Z) :
  written_polarity sysfs_streq buf = Some (polarity (motor s)) ->
  polarity_store dm sysfs_streq buf size s = Some (size, s).
Proof.
  intros E. pose proof (written_polarity_cases buf) as H. rewrite E in H.
  unfold polarity_store, all_polarities, polarity_store_from; simpl.
  destruct (polarity (motor s)) eqn:Hp.
  - rewrite H; simpl. step. rewrite Hp. reflexivity.
  - destruct H as [Hn Hi]. rewrite Hn, Hi; simpl.
    step. rewrite Hp. reflexivity.
Qed.

(** X11: a polarity write that names no polarity returns -EINVAL, and one
    that names the polarity the motor already has returns the size; in both
    cases the state is as it was and the driver is not called. *)
Theorem polarity_store_idle s (buf : string) (size : Z) :
  (written_polarity sysfs_streq buf = None ->
   polarity_store dm sysfs_streq buf size s = Some (- EINVAL, s)) /\
  (written_polarity sysfs_streq buf = Some (polarity (motor s)) ->
   polarity_store dm sysfs_streq buf size s = Some (size, s)).
Proof.
  split.
  - apply polarity_store_unknown.
  - apply polarity_store_same.
Qed.

(** A polarity write that names the other polarity goes through
    [servo_motor_class_set_position] with the stored position. *)
Lemma polarity_store_applies s (buf : string) (size : Z)
      (pol : servo_motor_polarity) :
  written_polarity sysfs_streq buf = Some pol ->
  pol <> polarity (motor s) ->
  polarity_store dm sysfs_streq buf size s
  = bind (servo_motor_class_set_position dm (position (motor s)) pol)
         (fun err => ret (status err size)) s.
Proof.
  intros E Hne.
  pose proof (written_polarity_cases buf) as H. rewrite E in H.
  unfold polarity_store, all_polarities, polarity_store_from; simpl.
  destruct pol.
  - destruct (polarity (motor s)) eqn:Hp; [congruence |].
    rewrite H; simpl. step. rewrite Hp; simpl. step.
    unfold bind.
    destruct (servo_motor_class_set_position _ _ _ _) as [[err s'] |];
      [| reflexivity].
    unfold status, ret. destruct (err =? 0); reflexivity.
  - destruct (polarity (motor s)) eqn:Hp; [| congruence].
    destruct H as [Hn Hi]. rewrite Hn, Hi; simpl. step. rewrite Hp; simpl. step.
    unfold bind.
    destruct (servo_motor_class_set_position _ _ _ _) as [[err s'] |];
      [| reflexivity].
    unfold status, ret. destruct (err =? 0); reflexivity.
Qed.

(** X12: a polarity write that names the other polarity records it.  While
    floating nothing else happens and the size is returned; while running
    the driver is called once with the pulse of the stored position under
    the new polarity, and a non-zero answer is returned with the polarity
    already changed.  Either way [polarity_show] then prints the written
    polarity, and the stored position is untouched. *)
Theorem polarity_store_switches s (buf : string) (size : Z)
        (pol : servo_motor_polarity) (out : string) :
  written_polarity sysfs_streq buf = Some pol ->
  pol <> polarity (motor s) ->
  exists r s',
    polarity_store dm sysfs_streq buf size s = Some (r, s') /\
    polarity (motor s') = pol /\
    position (motor s') = position (motor s) /\
    polarity_show out s'
    = Some ((strlen (sprintf_s (servo_motor_polarity_values pol)),
             sprintf_s (servo_motor_polarity_values pol)), s') /\
    match command (motor s) with
    | SERVO_MOTOR_COMMAND_FLOAT =>
      r = size /\ s' = recorded s (position (motor s)) pol
    | SERVO_MOTOR_COMMAND_RUN =>
      exists pulse,
        apply_position_pulse dm (motor s) (position (motor s)) pol = Some pulse /\
        s' = after_set_position (recorded s (position (motor s)) pol) pulse /\
        r = status (driver_answer (recorded s (position (motor s)) pol) pulse)
                   size
    end.
Proof.
  intros E Hne.
  rewrite (polarity_store_applies s buf size pol E Hne). unfold bind.
  destruct (command (motor s)) eqn:Hc.
  - destruct (apply_position_pulse_defined dm ctx (motor s)
                (position (motor s)) pol) as [pulse Hp].
    rewrite (set_position_run dm ctx s _ pol pulse Hc Hp).
    eexists; eexists; split; [reflexivity |].
    repeat (split; [reflexivity |]).
    exists pulse. repeat split; trivial.
  - rewrite (set_position_float dm ctx s _ pol Hc).
    eexists; eexists; split; [reflexivity |].
    repeat (split; [reflexivity |]).
    split; reflexivity.
Qed.

End KeywordFacts.

(** ** What every request keeps *)

Section SysfsFacts.

Variable dm : data_model.
Variable ctx : Type.
Variable sscanf_d : string -> option Z.
Variable sscanf_u : string -> option Z.
Variable sysfs_streq : string -> string -> bool.
Variable SERVO_MOTOR_NAME_SIZE : Z.

Implicit Type s : machine ctx.

(** [servo_motor_class_set_position] always returns; it touches neither the
    pulse bounds nor the command and leaves the position it was given. *)
Lemma set_position_frame s (p : Z) (pol : servo_motor_polarity) :
  exists r s',
    servo_motor_class_set_position dm p pol s = Some (r, s') /\
    same_pulses s s' /\
    position (motor s') = p /\
    polarity (motor s') = pol /\
    command (motor s') = command (motor s).
Proof.
  unfold same_pulses.
  destruct (command (motor s)) eqn:Hc.
  - destruct (apply_position_pulse_defined dm ctx (motor s) p pol)
      as [pulse Hp].
    rewrite (set_position_run dm ctx s p pol pulse Hc Hp).
    eexists; eexists; split; [reflexivity |].
    simpl; repeat split; trivial.
  - rewrite (set_position_float dm ctx s p pol Hc).
    eexists; eexists; split; [reflexivity |].
    simpl; repeat split; trivial.
Qed.

Lemma command_store_frame s (buf : string) (size : Z) :
  exists r s',
    command_store dm sysfs_streq buf size s = Some (r, s') /\
    same_pulses s s' /\
    position (motor s') = position (motor s) /\
    polarity (motor s') = polarity (motor s).
Proof.
  unfold same_pulses.
  pose proof (command_store_unknown dm ctx sysfs_streq s buf size) as Hnone.
  pose proof (command_store_same dm ctx sysfs_streq s buf size) as Hsame.
  pose proof (written_command_cases sysfs_streq buf) as H.
  destruct (written_command sysfs_streq buf) as [c |] eqn:E.
  - destruct c; destruct (command (motor s)) eqn:Hc;
      try (rewrite (Hsame eq_refl); eexists; eexists;
           repeat split; reflexivity).
    + destruct (apply_position_pulse_defined dm ctx (motor s)
                  (position (motor s)) (polarity (motor s))) as [pulse Hp].
      rewrite (command_store_float_to_run dm ctx sysfs_streq s buf size pulse
                 Hc H Hp).
      eexists; eexists; repeat split; reflexivity.
    + destruct H as [Hrun Hfloat].
      rewrite (command_store_run_to_float dm ctx sysfs_streq s buf size
                 Hc Hrun Hfloat).
      eexists; eexists; repeat split; reflexivity.
  - rewrite (Hnone eq_refl). eexists; eexists; repeat split; reflexivity.
Qed.

Lemma polarity_store_frame s (buf : string) (size : Z) :
  exists r s',
    polarity_store dm sysfs_streq buf size s = Some (r, s') /\
    same_pulses s s' /\
    position (motor s') = position (motor s) /\
    command (motor s') = command (motor s).
Proof.
  unfold same_pulses.
  pose proof (polarity_store_unknown dm ctx sysfs_streq s buf size) as Hnone.
  pose proof (polarity_store_same dm ctx sysfs_streq s buf size) as Hsame.
  destruct (written_polarity sysfs_streq buf) as [pol |] eqn:E.
  - destruct (polarity_eqb pol (polarity (motor s))) eqn:Hp.
    + assert (pol = polarity (motor s))
        by (destruct pol; destruct (polarity (motor s)); simpl in Hp;
            congruence).
      subst pol. rewrite (Hsame eq_refl).
      eexists; eexists; repeat split; reflexivity.
    + assert (Hne : pol <> polarity (motor s))
        by (intros ->; destruct (polarity (motor s)); discriminate).
      rewrite (polarity_store_applies dm ctx sysfs_streq s buf size pol E Hne).
      destruct (set_position_frame s (position (motor s)) pol)
        as (r & s' & Hset & Hpulses & Hpos & _ & Hcmd).
      unfold same_pulses in Hpulses.
      unfold bind. rewrite Hset.
      eexists; eexists; split; [reflexivity |].
      repeat split; tauto.
  - rewrite (Hnone eq_refl). eexists; eexists; repeat split; reflexivity.
Qed.

Lemma position_store_frame s (buf : string) (count : Z) :
  exists r s',
    position_store dm sscanf_d buf count s = Some (r, s') /\
    same_pulses s s' /\
    command (motor s') = command (motor s) /\
    polarity (motor s') = polarity (motor s) /\
    (position_valid (motor s) -> position_valid (motor s')).
Proof.
  unfold position_store, same_pulses.
  destruct (sscanf_d buf) as [value |];
    [| eexists; eexists; split; [reflexivity | intuition auto]].
  destruct (Z.gtb_spec (to_int value) 100);
    [eexists; eexists; split; [reflexivity | intuition auto] |].
  destruct (Z.ltb_spec (to_int value) (-100));
    [eexists; eexists; split; [reflexivity | intuition auto] |].
  simpl. step.
  destruct (position (motor s) =? to_int value); simpl;
    [eexists; eexists; split; [reflexivity | intuition auto] |].
  step.
  destruct (set_position_frame s (to_int value) (polarity (motor s)))
    as (r & s' & Hset & Hpulses & Hpos & Hpol & Hcmd).
  unfold bind. rewrite Hset.
  assert (Hvalid : position_valid (motor s'))
    by (unfold position_valid; lia).
  destruct (negb (r =? 0)); eexists; eexists; (split; [reflexivity |]);
    unfold same_pulses in Hpulses; intuition auto.
Qed.

Lemma pulse_store_frame s (buf : string) (count : Z) :
  pulses_valid (motor s) ->
  (exists r s', min_pulse_ms_store sscanf_u buf count s = Some (r, s') /\
                pulses_valid (motor s') /\
                position (motor s') = position (motor s)) /\
  (exists r s', mid_pulse_ms_store sscanf_u buf count s = Some (r, s') /\
                pulses_valid (motor s') /\
                position (motor s') = position (motor s)) /\
  (exists r s', max_pulse_ms_store sscanf_u buf count s = Some (r, s') /\
                pulses_valid (motor s') /\
                position (motor s') = position (motor s)).
Proof.
  intros Hv. pose proof Hv as (Hmin & Hmid & Hmax).
  split; [| split].
  - destruct (min_pulse_ms_store_cases ctx sscanf_u s buf count)
      as [E | (value & _ & Hr & E & _)]; rewrite E;
      eexists; eexists; (split; [reflexivity |]); split; trivial.
    unfold pulses_valid; simpl; lia.
  - destruct (mid_pulse_ms_store_cases ctx sscanf_u s buf count)
      as [E | (value & _ & Hr & E & _)]; rewrite E;
      eexists; eexists; (split; [reflexivity |]); split; trivial.
    unfold pulses_valid; simpl; lia.
  - destruct (max_pulse_ms_store_cases ctx sscanf_u s buf count)
      as [E | (value & _ & Hr & E & _)]; rewrite E;
      eexists; eexists; (split; [reflexivity |]); split; trivial.
    unfold pulses_valid; simpl; lia.
Qed.

Lemma rate_frame s (buf : string) (count : Z) :
  (exists r s', rate_show buf s = Some (r, s') /\
                same_pulses s s' /\
                position (motor s') = position (motor s)) /\
  (exists r s', rate_store sscanf_u buf count s = Some (r, s') /\
                same_pulses s s' /\
                position (motor s') = position (motor s)).
Proof.
  unfold same_pulses.
  split.
  - unfold rate_show. rewrite bind_load.
    destruct (get_rate (ops (motor s))) as [callback |];
      [| eexists; eexists; repeat split; reflexivity].
    unfold bind, ops_get_rate.
    destruct (callback (context (motor s))) as [r c].
    destruct (to_int r <? 0); eexists; eexists; repeat split; reflexivity.
  - unfold rate_store. rewrite bind_load.
    destruct (set_rate (ops (motor s))) as [callback |];
      [| eexists; eexists; repeat split; reflexivity].
    destruct (sscanf_u buf) as [value |];
      [| eexists; eexists; repeat split; reflexivity].
    unfold bind, ops_set_rate.
    destruct (callback (context (motor s)) (to_unsigned value)) as [r c].
    destruct (to_int r <? 0); eexists; eexists; repeat split; reflexivity.
Qed.

(** Every request returns when the pulse bounds are valid, and keeps them
    valid; a stored percentage stays one. *)
Lemma serve_keeps s (q : request) :
  pulses_valid (motor s) ->
  exists r s',
    serve dm sscanf_d sscanf_u sysfs_streq SERVO_MOTOR_NAME_SIZE q s
    = Some (r, s') /\
    pulses_valid (motor s') /\
    (position_valid (motor s) -> position_valid (motor s')).
Proof.
  intros Hv.
  destruct (pulse_store_frame s
              match q with
              | WriteMinPulse b _ | WriteMidPulse b _ | WriteMaxPulse b _ => b
              | _ => EmptyString
              end
              match q with
              | WriteMinPulse _ c | WriteMidPulse _ c | WriteMaxPulse _ c => c
              | _ => 0
              end Hv)
    as ((r1 & s1 & E1 & V1 & P1) & (r2 & s2 & E2 & V2 & P2)
        & (r3 & s3 & E3 & V3 & P3)).
  assert (Hkeep : forall s', same_pulses s s' -> pulses_valid (motor s')).
  { intros s' (A & B & C). unfold pulses_valid. rewrite A, B, C. exact Hv. }
  assert (Hsame : same_pulses s s) by (repeat split).
  destruct q; simpl;
    try (eexists; eexists; split; [reflexivity |]; split; trivial).
  - unfold bind. rewrite E1.
    eexists; eexists; split; [reflexivity |]; split; trivial.
    unfold position_valid; rewrite P1; trivial.
  - unfold bind. rewrite E2.
    eexists; eexists; split; [reflexivity |]; split; trivial.
    unfold position_valid; rewrite P2; trivial.
  - unfold bind. rewrite E3.
    eexists; eexists; split; [reflexivity |]; split; trivial.
    unfold position_valid; rewrite P3; trivial.
  - destruct (command_store_frame s buf size) as (r & s' & E & Hp & Hpos & _).
    unfold bind. rewrite E.
    eexists; eexists; split; [reflexivity |]; split; [auto |].
    unfold position_valid; rewrite Hpos; trivial.
  - destruct (polarity_store_frame s buf size) as (r & s' & E & Hp & Hpos & _).
    unfold bind. rewrite E.
    eexists; eexists; split; [reflexivity |]; split; [auto |].
    unfold position_valid; rewrite Hpos; trivial.
  - destruct (pulses_valid_spans ctx (motor s) Hv) as [Hlow Hhigh].
    destruct (position_show_defined dm ctx s buf Hlow Hhigh) as [r E].
    rewrite E.
    eexists; eexists; split; [reflexivity |]; split; trivial.
  - destruct (position_store_frame s buf count)
      as (r & s' & E & Hp & _ & _ & Hpos).
    unfold bind. rewrite E.
    eexists; eexists; split; [reflexivity |]; split; auto.
  - destruct (rate_frame s buf 0) as ((r & s' & E & Hp & Hpos) & _).
    rewrite E.
    eexists; eexists; split; [reflexivity |]; split; [auto |].
    unfold position_valid; rewrite Hpos; trivial.
  - destruct (rate_frame s buf count) as (_ & (r & s' & E & Hp & Hpos)).
    unfold bind. rewrite E.
    eexists; eexists; split; [reflexivity |]; split; [auto |].
    unfold position_valid; rewrite Hpos; trivial.
Qed.

End SysfsFacts.

(** ** Registration and the states it leads to *)

Section RegisterFacts.

Variable dm : data_model.
Variable ctx : Type.
Variable sscanf_d : string -> option Z.
Variable sscanf_u : string -> option Z.
Variable sysfs_streq : string -> string -> bool.
Variable SERVO_MOTOR_NAME_SIZE : Z.
Variable device_register : string -> Z.

Implicit Type s : machine ctx.

(** The device part of the registration, step by step. *)
Lemma register_device_result (dev_name : string) s :
  let s0 := {| motor := with_max_pulse_ms 2400
                          (with_mid_pulse_ms 1500
                             (with_min_pulse_ms 600 (motor s)));
               calls := calls s |} in
  register_device device_register dev_name s
  = Some (if driver_reading s <? 0
          then (driver_reading s, after_get_position s0)
          else (to_int (device_register dev_name),
                commanded (after_get_position s0)
                          (if driver_reading s =? 0
                           then SERVO_MOTOR_COMMAND_FLOAT
                           else SERVO_MOTOR_COMMAND_RUN))).
Proof.
  intros s0. unfold register_device.
  rewrite !bind_store. cbn [motor calls]. fold s0.
  unfold servo_motor_class_get_command. rewrite bind_bind, bind_get_position.
  change (driver_reading s0) with (driver_reading s).
  destruct (driver_reading s <? 0); [reflexivity |].
  rewrite !bind_ret, bind_store.
  unfold commanded.
  destruct (driver_reading s =? 0); simpl;
    destruct (to_int (device_register dev_name) =? 0) eqn:E; simpl;
    unfold ret; try reflexivity;
    apply Z.eqb_eq in E; rewrite E; reflexivity.
Qed.

(** X13: [register_servo_motor] with a null device, a null port name or a
    null parent returns -EINVAL and touches nothing, the counter included.
    Otherwise it always consumes one number of the counter for the name
    motor<N>, installs the default pulses 600/1500/2400 and asks the driver
    for its position once; a negative answer is returned as it is, with the
    command field left alone (the number is spent all the same); otherwise
    the command becomes float for a zero position and run for any other, and
    the result is that of [device_register].  Position and polarity are
    never set. *)
Theorem register_servo_motor_outcome s (has_port_name : bool)
        (parent : option string) (parent_name : string) (id : Z) :
  @register_servo_motor ctx device_register None has_port_name parent id
  = Some {| reg_result := - EINVAL; reg_servo := None;
            reg_dev_name := None; reg_class_id := id |} /\
  register_servo_motor device_register (Some s) false parent id
  = Some {| reg_result := - EINVAL; reg_servo := Some s;
            reg_dev_name := None; reg_class_id := id |} /\
  register_servo_motor device_register (Some s) has_port_name None id
  = Some {| reg_result := - EINVAL; reg_servo := Some s;
            reg_dev_name := None; reg_class_id := id |} /\
  exists r s',
    let dev_name :=
      ("motor" ++ NilZero.string_of_int (Z.to_int (to_int id)))%string in
    register_servo_motor device_register (Some s) true (Some parent_name) id
    = Some {| reg_result := r; reg_servo := Some s';
              reg_dev_name := Some dev_name;
              reg_class_id := to_unsigned (id + 1) |} /\
    default_pulses (motor s') /\
    calls s' = calls s ++ [CallGetPosition] /\
    position (motor s') = position (motor s) /\
    polarity (motor s') = polarity (motor s) /\
    (if driver_reading s <? 0
     then r = driver_reading s /\ command (motor s') = command (motor s)
     else r = to_int (device_register dev_name) /\
          command (motor s') = if driver_reading s =? 0
                               then SERVO_MOTOR_COMMAND_FLOAT
                               else SERVO_MOTOR_COMMAND_RUN).
Proof.
  split; [reflexivity |]. split; [reflexivity |].
  split; [destruct has_port_name; reflexivity |].
  unfold register_servo_motor; simpl.
  rewrite register_device_result.
  destruct (driver_reading s <? 0);
    eexists; eexists; (split; [reflexivity |]);
    unfold default_pulses; simpl; repeat split; reflexivity.
Qed.

(** The pulse bounds are valid in every reachable state. *)
Lemma reachable_valid s :
  reachable dm sscanf_d sscanf_u sysfs_streq SERVO_MOTOR_NAME_SIZE
            device_register s ->
  pulses_valid (motor s).
Proof.
  intros Hreach.
  induction Hreach
    as [servo has_port_name parent id reg s Hreg Hres Hs | s q r s' _ IH Hq].
  - destruct servo as [s0 |]; destruct has_port_name;
      destruct parent as [parent |];
      simpl in Hreg; try (inversion Hreg; subst; simpl in Hres;
                          unfold EINVAL in Hres; discriminate).
    rewrite register_device_result in Hreg.
    destruct (driver_reading s0 <? 0); inversion Hreg; subst reg;
      simpl in Hs; inversion Hs; subst s;
      unfold pulses_valid; simpl; lia.
  - destruct (serve_keeps dm ctx sscanf_d sscanf_u sysfs_streq
                SERVO_MOTOR_NAME_SIZE s q IH) as (r0 & s0 & E & Hv & _).
    rewrite E in Hq. inversion Hq; subst. exact Hv.
Qed.

(** X14: in every state a motor reaches, from a successful registration
    through any sequence of attribute requests, the pulse bounds lie in their
    ranges [300,700], [1300,1700] and [2300,2700]; so
    min_pulse < mid_pulse < max_pulse always holds, although each bound is
    only checked against its own range. *)
Theorem reachable_pulses_valid s :
  reachable dm sscanf_d sscanf_u sysfs_streq SERVO_MOTOR_NAME_SIZE
            device_register s ->
  pulses_valid (motor s) /\
  min_pulse_ms (motor s) < mid_pulse_ms (motor s) < max_pulse_ms (motor s).
Proof.
  intros Hreach.
  pose proof (reachable_valid s Hreach) as Hv.
  split; [exact Hv |].
  destruct Hv as (Hmin & Hmid & Hmax). lia.
Qed.

(** X15: in every reachable state every attribute request returns: no
    callback ever divides by zero; the state it leads to is reachable too,
    and once the stored position is a percentage in [-100,100] it stays
    one. *)
Theorem reachable_never_traps s (q : request) :
  reachable dm sscanf_d sscanf_u sysfs_streq SERVO_MOTOR_NAME_SIZE
            device_register s ->
  exists r s',
    serve dm sscanf_d sscanf_u sysfs_streq SERVO_MOTOR_NAME_SIZE q s
    = Some (r, s') /\
    reachable dm sscanf_d sscanf_u sysfs_streq SERVO_MOTOR_NAME_SIZE
              device_register s' /\
    (position_valid (motor s) -> position_valid (motor s')).
Proof.
  intros Hreach.
  pose proof (reachable_valid s Hreach) as Hv.
  destruct (serve_keeps dm ctx sscanf_d sscanf_u sysfs_streq
              SERVO_MOTOR_NAME_SIZE s q Hv) as (r & s' & E & _ & Hpos).
  exists r, s'. split; [exact E |]. split; [| exact Hpos].
  apply (reachable_served _ _ _ _ _ _ _ s q r s' Hreach E).
Qed.

End RegisterFacts.

(** ** The rate attribute, the text attributes and the uevent *)

Lemma string_length_append (a b : string) :
  String.length (a ++ b) = (String.length a + String.length b)%nat.
Proof. induction a as [| ch a IH]; simpl; [reflexivity | now rewrite IH]. Qed.

Lemma substring_prefix_length (n : nat) (text : string) :
  String.length (substring 0 n text) = Nat.min n (String.length text).
Proof.
  revert text. induction n as [| n IH]; intros [| ch text]; simpl;
    try reflexivity.
  now rewrite IH.
Qed.

Lemma substring_prefix_all (n : nat) (text : string) :
  (String.length text <= n)%nat -> substring 0 n text = text.
Proof.
  revert text. induction n as [| n IH]; intros [| ch text]; simpl;
    try reflexivity; intros H; [lia |].
  rewrite IH by lia. reflexivity.
Qed.

Lemma substring_prefix_is_prefix (n : nat) (text : string) :
  prefix (substring 0 n text) text = true.
Proof.
  revert text. induction n as [| n IH]; intros [| ch text]; simpl;
    try reflexivity.
  destruct (ascii_dec ch ch); [apply IH | congruence].
Qed.

(** What [snprintf] stores and returns. *)
Lemma snprintf_bounds (buf : string) (size : Z) (text : string) :
  0 < size ->
  fst (snprintf buf size text) = strlen text /\
  prefix (snd (snprintf buf size text)) text = true /\
  strlen (snd (snprintf buf size text)) = Z.min (size - 1) (strlen text) /\
  (strlen text < size -> snd (snprintf buf size text) = text).
Proof.
  intros Hsize. unfold snprintf, strlen; simpl.
  destruct (Z.leb_spec size 0); [lia |].
  split; [reflexivity |].
  split; [apply substring_prefix_is_prefix |].
  split.
  - rewrite substring_prefix_length. lia.
  - intros Hfit. apply substring_prefix_all. lia.
Qed.

(** The decimal text of a pulse bound of the maximum's range takes four
    digits. *)
Lemma max_pulse_text_length (v : Z) :
  2300 <= v <= 2700 -> strlen (sprintf_u v) = 5.
Proof.
  intros Hv.
  assert (Hall : forallb (fun n => strlen (sprintf_u (2300 + Z.of_nat n)) =? 5)
                         (seq 0 401) = true) by (vm_compute; reflexivity).
  rewrite forallb_forall in Hall.
  specialize (Hall (Z.to_nat (v - 2300))).
  rewrite in_seq in Hall.
  specialize (Hall ltac:(lia)).
  replace (2300 + Z.of_nat (Z.to_nat (v - 2300))) with v in Hall by lia.
  apply Z.eqb_eq; exact Hall.
Qed.

Section TextFacts.

Variable ctx : Type.
Variable sscanf_u : string -> option Z.
Variable SERVO_MOTOR_NAME_SIZE : Z.
Variable uevent_env : Type.
Variable add_uevent_var : uevent_env -> string -> Z * uevent_env.

Implicit Type s : machine ctx.

(** X16: without a rate callback both rate attributes return -ENOSYS before
    anything else is looked at.  With one, an unparseable write returns
    -EINVAL without calling the driver; a parsed value is handed to the
    driver once, and only a negative answer counts as an error: any other
    answer makes the write return the count.  Reading hands a negative
    answer back and leaves the buffer, and prints any other answer. *)
Theorem rate_pass_through s (buf : string) (count : Z) :
  (get_rate (ops (motor s)) = None ->
   rate_show buf s = Some ((- ENOSYS, buf), s)) /\
  (set_rate (ops (motor s)) = None ->
   rate_store sscanf_u buf count s = Some (- ENOSYS, s)) /\
  (forall callback,
      get_rate (ops (motor s)) = Some callback ->
      let answer := to_int (fst (callback (context (motor s)))) in
      let s' := {| motor := with_context (snd (callback (context (motor s))))
                                         (motor s);
                   calls := calls s ++ [CallGetRate] |} in
      rate_show buf s
      = Some (if answer <? 0 then (answer, buf)
              else (strlen (sprintf_d answer), sprintf_d answer), s')) /\
  (forall callback,
      set_rate (ops (motor s)) = Some callback ->
      match sscanf_u buf with
      | None => rate_store sscanf_u buf count s = Some (- EINVAL, s)
      | Some value =>
        let done := callback (context (motor s)) (to_unsigned value) in
        let answer := to_int (fst done) in
        rate_store sscanf_u buf count s
        = Some (if answer <? 0 then answer else count,
                {| motor := with_context (snd done) (motor s);
                   calls := calls s ++ [CallSetRate (to_unsigned value)] |})
      end).
Proof.
  split; [| split; [| split]].
  - intros H. unfold rate_show. rewrite bind_load, H. reflexivity.
  - intros H. unfold rate_store. rewrite bind_load, H. reflexivity.
  - intros callback H. unfold rate_show. rewrite bind_load, H.
    unfold bind, ops_get_rate.
    destruct (callback (context (motor s))) as [r c]; simpl.
    destruct (to_int r <? 0); reflexivity.
  - intros callback H. unfold rate_store. rewrite bind_load, H.
    destruct (sscanf_u buf) as [value |]; [| reflexivity].
    unfold bind, ops_set_rate.
    destruct (callback (context (motor s)) (to_unsigned value)) as [r c]; simpl.
    destruct (to_int r <? 0); reflexivity.
Qed.

(** X17: [name_show] and [port_name_show] always return the length of the
    whole line (the text and its newline), also when it does not fit
    [SERVO_MOTOR_NAME_SIZE]: what is stored is the prefix of the line of
    [SERVO_MOTOR_NAME_SIZE - 1] characters, the whole line only when it is
    shorter than [SERVO_MOTOR_NAME_SIZE]; so a name of
    [SERVO_MOTOR_NAME_SIZE - 1] characters or more loses its newline and the
    returned length exceeds the text stored.  The state is untouched. *)
Theorem name_show_truncates s (buf : string) :
  0 < SERVO_MOTOR_NAME_SIZE ->
  exists stored stored',
    name_show SERVO_MOTOR_NAME_SIZE buf s
    = Some ((strlen (name (motor s)) + 1, stored), s) /\
    port_name_show SERVO_MOTOR_NAME_SIZE buf s
    = Some ((strlen (port_name (motor s)) + 1, stored'), s) /\
    prefix stored (sprintf_s (name (motor s))) = true /\
    prefix stored' (sprintf_s (port_name (motor s))) = true /\
    strlen stored
    = Z.min (SERVO_MOTOR_NAME_SIZE - 1) (strlen (name (motor s)) + 1) /\
    strlen stored'
    = Z.min (SERVO_MOTOR_NAME_SIZE - 1) (strlen (port_name (motor s)) + 1) /\
    (strlen (name (motor s)) + 1 < SERVO_MOTOR_NAME_SIZE ->
     stored = sprintf_s (name (motor s))) /\
    (strlen (port_name (motor s)) + 1 < SERVO_MOTOR_NAME_SIZE ->
     stored' = sprintf_s (port_name (motor s))).
Proof.
  intros Hsize.
  assert (Hlen : forall text, strlen (sprintf_s text) = strlen text + 1).
  { intros text. unfold strlen, sprintf_s.
    rewrite string_length_append. simpl. lia. }
  destruct (snprintf_bounds buf SERVO_MOTOR_NAME_SIZE
              (sprintf_s (name (motor s))) Hsize) as (R & P & L & F).
  destruct (snprintf_bounds buf SERVO_MOTOR_NAME_SIZE
              (sprintf_s (port_name (motor s))) Hsize) as (R' & P' & L' & F').
  rewrite Hlen in *.
  exists (snd (snprintf buf SERVO_MOTOR_NAME_SIZE (sprintf_s (name (motor s))))).
  exists (snd (snprintf buf SERVO_MOTOR_NAME_SIZE
                        (sprintf_s (port_name (motor s))))).
  split; [| split].
  - unfold name_show. rewrite bind_load. unfold ret.
    rewrite <- R. rewrite <- surjective_pairing. reflexivity.
  - unfold port_name_show. rewrite bind_load. unfold ret.
    rewrite <- R'. rewrite <- surjective_pairing. reflexivity.
  - repeat split; assumption.
Qed.

(** X18: a pulse bound that a write has stored is what the matching read
    prints, as the decimal text of the written number followed by a newline;
    for max_pulse_ms, printed through [snprintf], this needs
    [SERVO_MOTOR_NAME_SIZE] to be at least 6, else the text is cut. *)
Theorem pulse_store_then_show s (count : Z) (out : string) :
  (forall buf value,
      sscanf_u buf = Some value -> 300 <= value <= 700 ->
      exists s', min_pulse_ms_store sscanf_u buf count s = Some (count, s') /\
                 min_pulse_ms_show out s'
                 = Some ((strlen (sprintf_d value), sprintf_d value), s')) /\
  (forall buf value,
      sscanf_u buf = Some value -> 1300 <= value <= 1700 ->
      exists s', mid_pulse_ms_store sscanf_u buf count s = Some (count, s') /\
                 mid_pulse_ms_show out s'
                 = Some ((strlen (sprintf_d value), sprintf_d value), s')) /\
  (forall buf value,
      sscanf_u buf = Some value -> 2300 <= value <= 2700 ->
      exists s', max_pulse_ms_store sscanf_u buf count s = Some (count, s') /\
                 max_pulse_ms_show SERVO_MOTOR_NAME_SIZE out s'
                 = Some (snprintf out SERVO_MOTOR_NAME_SIZE (sprintf_d value),
                         s') /\
                 (6 <= SERVO_MOTOR_NAME_SIZE ->
                  max_pulse_ms_show SERVO_MOTOR_NAME_SIZE out s'
                  = Some ((5, sprintf_d value), s'))).
Proof.
  assert (Hu : forall value, 0 <= value < 2 ^ 32 -> to_unsigned value = value)
    by apply to_unsigned_small.
  split; [| split]; intros buf value Hscan Hr;
    specialize (Hu value ltac:(lia)).
  - unfold min_pulse_ms_store. rewrite Hscan, Hu.
    destruct (Z.gtb_spec value 700); [lia |].
    destruct (Z.ltb_spec value 300); [lia |].
    simpl. rewrite bind_store. eexists; split; [reflexivity |].
    unfold min_pulse_ms_show. rewrite bind_load; simpl.
    unfold sprintf_u, ret. rewrite Hu. reflexivity.
  - unfold mid_pulse_ms_store. rewrite Hscan, Hu.
    destruct (Z.gtb_spec value 1700); [lia |].
    destruct (Z.ltb_spec value 1300); [lia |].
    simpl. rewrite bind_store. eexists; split; [reflexivity |].
    unfold mid_pulse_ms_show. rewrite bind_load; simpl.
    unfold sprintf_u, ret. rewrite Hu. reflexivity.
  - unfold max_pulse_ms_store. rewrite Hscan, Hu.
    destruct (Z.gtb_spec value 2700); [lia |].
    destruct (Z.ltb_spec value 2300); [lia |].
    simpl. rewrite bind_store. eexists; split; [reflexivity |].
    unfold max_pulse_ms_show. rewrite bind_load; simpl.
    assert (Ht : sprintf_u value = sprintf_d value)
      by (unfold sprintf_u; rewrite Hu; reflexivity).
    rewrite Ht. split; [reflexivity |].
    intros Hsize. unfold ret. f_equal. f_equal.
    pose proof (max_pulse_text_length value ltac:(lia)) as Hlen.
    rewrite Ht in Hlen.
    destruct (snprintf_bounds out SERVO_MOTOR_NAME_SIZE (sprintf_d value)
                ltac:(lia)) as (R & _ & _ & F).
    rewrite (surjective_pairing (snprintf _ _ _)).
    rewrite R, F, Hlen by lia. reflexivity.
Qed.

(** X19: [servo_motor_dev_uevent] returns the error of adding NAME, with
    one message, and stops; once NAME is added it returns 0 and logs nothing
    whatever [add_uevent_var] answers for PORT_NAME: that answer is never
    looked at, so a failure to add PORT_NAME goes unreported. *)
Theorem uevent_port_name_unchecked (servo : servo_motor_device ctx)
        (env : uevent_env) :
  let first := add_uevent_var env ("NAME=" ++ name servo) in
  let second := add_uevent_var (snd first) ("PORT_NAME=" ++ port_name servo) in
  servo_motor_dev_uevent add_uevent_var servo env
  = if to_int (fst first) =? 0
    then (0, snd second, [])
    else (to_int (fst first), snd first, ["failed to add uevent NAME"%string]).
Proof.
  intros first second. unfold servo_motor_dev_uevent.
  subst second first.
  destruct (add_uevent_var env ("NAME=" ++ name servo)) as [r env1]; simpl.
  destruct (to_int r =? 0); simpl; [| reflexivity].
  destruct (add_uevent_var env1 _); reflexivity.
Qed.

End TextFacts.

(** ** Inverted polarity *)

Section PolarityFacts.

Variable dm : data_model.
Variable ctx : Type.

Implicit Type s : machine ctx.

(** X20: while running, setting a percentage with inverted polarity sends
    the driver the same pulse, with the same answer, as setting the negated
    percentage with normal polarity; only the recorded position and polarity
    differ. *)
Theorem inverted_is_negated s (percent : Z) :
  command (motor s) = SERVO_MOTOR_COMMAND_RUN ->
  INT_MIN < percent <= INT_MAX ->
  exists pulse,
    servo_motor_class_set_position dm percent SERVO_MOTOR_POLARITY_INVERTED s
    = Some (driver_answer s pulse,
            after_set_position
              (recorded s percent SERVO_MOTOR_POLARITY_INVERTED) pulse) /\
    servo_motor_class_set_position dm (- percent) SERVO_MOTOR_POLARITY_NORMAL s
    = Some (driver_answer s pulse,
            after_set_position
              (recorded s (- percent) SERVO_MOTOR_POLARITY_NORMAL) pulse).
Proof.
  intros Hc Hp.
  destruct (apply_position_pulse_defined dm ctx (motor s) percent
              SERVO_MOTOR_POLARITY_INVERTED) as [pulse Hpulse].
  assert (Hneg : apply_position_pulse dm (motor s) (- percent)
                   SERVO_MOTOR_POLARITY_NORMAL = Some pulse).
  { rewrite <- Hpulse. unfold apply_position_pulse.
    rewrite to_int_small; [reflexivity |].
    revert Hp; unfold int_range, INT_MIN, INT_MAX; lia. }
  exists pulse. split.
  - apply (set_position_run dm ctx s percent _ pulse Hc Hpulse).
  - apply (set_position_run dm ctx s (- percent) _ pulse Hc Hneg).
Qed.

End PolarityFacts.

(** ** The further theorems on the concrete driver *)

Section MoreExamples.

Import Demo DemoKernel.

Lemma seven_is_int : int_range 7.
Proof. unfold int_range, INT_MIN, INT_MAX; lia. Qed.

Lemma pulse_ints :
  int_range 600 /\ int_range 1500 /\ int_range (-100) /\ int_range 0.
Proof. unfold int_range, INT_MIN, INT_MAX; lia. Qed.

Lemma default_pulses_valid (cmd : servo_motor_command)
      (pol : servo_motor_polarity) (percent : Z) (c : pwm) :
  pulses_valid (motor (servo cmd pol percent c)).
Proof. unfold pulses_valid; simpl; lia. Qed.

Lemma registered_reachable :
  reachable ILP32 read_decimal read_unsigned streq 30 register_ok registered.
Proof.
  apply (reachable_registered ILP32 pwm read_decimal read_unsigned streq 30
           register_ok (Some (fresh idle)) true (Some "pwm0"%string) 0
           {| reg_result := 0; reg_servo := Some registered;
              reg_dev_name := Some "motor0"%string; reg_class_id := 1 |}
           registered); reflexivity.
Qed.

Example register_fresh :
  register_servo_motor register_ok (Some (fresh (driven 1950))) true
                       (Some "pwm0"%string) 7
  = Some {| reg_result := 0;
            reg_servo :=
              Some {| motor := motor (running normal 0 (driven 1950));
                      calls := [CallGetPosition] |};
            reg_dev_name := Some "motor7"%string;
            reg_class_id := 8 |}.
Proof. reflexivity. Qed.

Example register_without_port_name :
  register_servo_motor register_ok (Some (fresh (driven 1950))) false
                       (Some "pwm0"%string) 7
  = Some {| reg_result := - EINVAL;
            reg_servo := Some (fresh (driven 1950));
            reg_dev_name := None;
            reg_class_id := 7 |}.
Proof. reflexivity. Qed.

Example uevent_second_variable_lost :
  servo_motor_dev_uevent (add_var 1) (motor (running normal 0 idle)) []
  = (0, ["NAME=pwm-servo"%string], []).
Proof. reflexivity. Qed.

Lemma scale_undefined_iff_witness :
  int_range 7 /\
  (servo_motor_class_scale LP64 7 7 0 100 9 = None <-> 7 = 7).
Proof.
  split; [exact seven_is_int |].
  apply (scale_undefined_iff LP64 7 7 0 100 seven_is_int seven_is_int 9).
Defined.

Lemma scale_range_witness :
  600 < 1500 /\ 600 <= 1050 <= 1500 /\ -100 <= 0 /\
  (1050 - 600) * (0 - -100) < product_limit ILP32 /\
  exists v,
    servo_motor_class_scale ILP32 600 1500 (-100) 0 1050 = Some v /\
    -100 <= v <= 0.
Proof.
  destruct pulse_ints as (H600 & H1500 & Hm100 & H0).
  assert (Hfit : (1050 - 600) * (0 - -100) < product_limit ILP32)
    by (unfold product_limit; lia).
  split; [lia |]. split; [lia |]. split; [lia |]. split; [exact Hfit |].
  destruct (scale_range ILP32 600 1500 (-100) 0 H600 H1500 Hm100 H0 1050
              ltac:(lia) ltac:(lia) ltac:(lia) Hfit) as (v & E & Hv & _).
  exists v. split; assumption.
Defined.

Lemma scale_monotone_witness :
  600 < 1500 /\ 600 <= 700 /\ 700 <= 1400 /\ 1400 <= 1500 /\ -100 <= 0 /\
  (1400 - 600) * (0 - -100) < product_limit LP64 /\
  exists v v',
    servo_motor_class_scale LP64 600 1500 (-100) 0 700 = Some v /\
    servo_motor_class_scale LP64 600 1500 (-100) 0 1400 = Some v' /\
    v <= v'.
Proof.
  destruct pulse_ints as (H600 & H1500 & Hm100 & H0).
  assert (Hfit : (1400 - 600) * (0 - -100) < product_limit LP64)
    by (unfold product_limit; lia).
  do 5 (split; [lia |]). split; [exact Hfit |].
  apply (scale_monotone LP64 600 1500 (-100) 0 H600 H1500 Hm100 H0 700 1400);
    trivial; lia.
Defined.

Lemma pulse_within_bounds_witness :
  command (motor (running inverted 0 idle)) = SERVO_MOTOR_COMMAND_RUN /\
  pulses_valid (motor (running inverted 0 idle)) /\ -100 <= 100 <= 100 /\
  exists pulse,
    servo_motor_class_set_position ILP32 100 inverted (running inverted 0 idle)
    = Some (driver_answer (recorded (running inverted 0 idle) 100 inverted) pulse,
            after_set_position (recorded (running inverted 0 idle) 100 inverted)
                               pulse) /\
    pulse = 600.
Proof.
  pose proof (default_pulses_valid SERVO_MOTOR_COMMAND_RUN inverted 0 idle) as Hv.
  split; [reflexivity |]. split; [exact Hv |]. split; [lia |].
  destruct (pulse_within_bounds ILP32 pwm (running inverted 0 idle) 100 inverted
              eq_refl Hv ltac:(lia))
    as (pulse & E & _ & _ & _ & _ & Hmin & _).
  exists pulse. split; [exact E | apply Hmin; reflexivity].
Defined.

Lemma pulse_monotone_witness :
  command (motor (running normal 0 idle)) = SERVO_MOTOR_COMMAND_RUN /\
  pulses_valid (motor (running normal 0 idle)) /\
  -100 <= -50 /\ -50 <= 50 /\ 50 <= 100 /\
  exists pulse pulse',
    servo_motor_class_set_position LP64 (-50) normal (running normal 0 idle)
    = Some (driver_answer (recorded (running normal 0 idle) (-50) normal) pulse,
            after_set_position (recorded (running normal 0 idle) (-50) normal)
                               pulse) /\
    servo_motor_class_set_position LP64 50 normal (running normal 0 idle)
    = Some (driver_answer (recorded (running normal 0 idle) 50 normal) pulse',
            after_set_position (recorded (running normal 0 idle) 50 normal)
                               pulse') /\
    pulse <= pulse'.
Proof.
  pose proof (default_pulses_valid SERVO_MOTOR_COMMAND_RUN normal 0 idle) as Hv.
  split; [reflexivity |]. split; [exact Hv |]. do 3 (split; [lia |]).
  apply (pulse_monotone LP64 pwm (running normal 0 idle) (-50) 50 normal
           eq_refl Hv); lia.
Defined.

Lemma position_show_total_witness :
  pulses_valid (motor (running normal 0 (driven 5000))) /\
  exists r,
    position_show ILP32 "" (running normal 0 (driven 5000))
    = Some (r, after_get_position (running normal 0 (driven 5000))).
Proof.
  pose proof (default_pulses_valid SERVO_MOTOR_COMMAND_RUN normal 0
                (driven 5000)) as Hv.
  split; [exact Hv |].
  destruct (position_show_total ILP32 pwm _ ""%string Hv) as (r & E & _).
  exists r. exact E.
Defined.

Lemma position_show_in_range_witness :
  pulses_valid (motor (running normal 0 (driven 1050))) /\
  min_pulse_ms (motor (running normal 0 (driven 1050)))
  <= driver_reading (running normal 0 (driven 1050))
  <= max_pulse_ms (motor (running normal 0 (driven 1050))) /\
  exists v,
    position_show LP64 "" (running normal 0 (driven 1050))
    = Some ((strlen (sprintf_d v), sprintf_d v),
            after_get_position (running normal 0 (driven 1050))) /\
    -100 <= v <= 100 /\ v < 0.
Proof.
  pose proof (default_pulses_valid SERVO_MOTOR_COMMAND_RUN normal 0
                (driven 1050)) as Hv.
  assert (Hraw : min_pulse_ms (motor (running normal 0 (driven 1050)))
                 <= driver_reading (running normal 0 (driven 1050))
                 <= max_pulse_ms (motor (running normal 0 (driven 1050))))
    by (split; discriminate).
  split; [exact Hv |]. split; [exact Hraw |].
  destruct (position_show_in_range LP64 pwm _ ""%string Hv Hraw)
    as (v & E & Hb & Hneg & _).
  exists v. split; [exact E |]. split; [exact Hb |].
  apply Hneg. reflexivity.
Defined.

Lemma position_round_trip_witness :
  command (motor (running inverted 0 idle)) = SERVO_MOTOR_COMMAND_RUN /\
  pulses_valid (motor (running inverted 0 idle)) /\
  read_decimal "37" = Some 37 /\ -100 <= 37 <= 100 /\
  position (motor (running inverted 0 idle)) <> 37 /\
  exists v,
    position_show ILP32 ""
      (after_set_position (recorded (running inverted 0 idle) 37 inverted)
         (pulse_value (motor (running inverted 0 idle)) (-37)))
    = Some ((strlen (sprintf_d v), sprintf_d v),
            after_get_position
              (after_set_position (recorded (running inverted 0 idle) 37 inverted)
                 (pulse_value (motor (running inverted 0 idle)) (-37)))) /\
    -37 - 1 <= v <= -37.
Proof.
  pose proof (default_pulses_valid SERVO_MOTOR_COMMAND_RUN inverted 0 idle) as Hv.
  split; [reflexivity |]. split; [exact Hv |]. split; [reflexivity |].
  split; [lia |]. split; [discriminate |].
  destruct (position_round_trip ILP32 pwm read_decimal (running inverted 0 idle)
              "37" 2 37 "" eq_refl Hv eq_refl ltac:(lia) ltac:(discriminate)
              eq_refl eq_refl) as (v & _ & E & Hb).
  exists v. split; [exact E | exact Hb].
Defined.

Lemma command_store_idle_witness :
  written_command streq "bogus" = None /\
  written_command streq "run"
  = Some (command (motor (running normal 0 idle))) /\
  command_store ILP32 streq "bogus" 5 (running normal 0 idle)
  = Some (- EINVAL, running normal 0 idle) /\
  command_store ILP32 streq "run" 3 (running normal 0 idle)
  = Some (3, running normal 0 idle).
Proof.
  split; [reflexivity |]. split; [reflexivity |].
  split.
  - apply (command_store_idle ILP32 pwm streq (running normal 0 idle)
             "bogus" 5). reflexivity.
  - apply (command_store_idle ILP32 pwm streq (running normal 0 idle)
             "run" 3). reflexivity.
Defined.

Lemma command_store_switches_witness :
  written_command streq "float" = Some SERVO_MOTOR_COMMAND_FLOAT /\
  SERVO_MOTOR_COMMAND_FLOAT <> command (motor (running normal 30 broken)) /\
  exists r s',
    command_store ILP32 streq "float" 5 (running normal 30 broken)
    = Some (r, s') /\
    r = -5 /\ command (motor s') = SERVO_MOTOR_COMMAND_FLOAT.
Proof.
  split; [reflexivity |]. split; [discriminate |].
  destruct (command_store_switches ILP32 pwm streq (running normal 30 broken)
              "float" 5 SERVO_MOTOR_COMMAND_FLOAT "" eq_refl
              ltac:(discriminate)) as (arg & Harg & E & _ & Hc & _).
  eexists; eexists. split; [exact E |].
  split; [subst arg; reflexivity | exact Hc].
Defined.

Lemma polarity_store_idle_witness :
  written_polarity streq "reversed" = None /\
  written_polarity streq "normal"
  = Some (polarity (motor (running normal 0 idle))) /\
  polarity_store ILP32 streq "reversed" 8 (running normal 0 idle)
  = Some (- EINVAL, running normal 0 idle) /\
  polarity_store ILP32 streq "normal" 6 (running normal 0 idle)
  = Some (6, running normal 0 idle).
Proof.
  split; [reflexivity |]. split; [reflexivity |].
  split.
  - apply (polarity_store_idle ILP32 pwm streq (running normal 0 idle)
             "reversed" 8). reflexivity.
  - apply (polarity_store_idle ILP32 pwm streq (running normal 0 idle)
             "normal" 6). reflexivity.
Defined.

Lemma polarity_store_switches_witness :
  written_polarity streq "inverted" = Some inverted /\
  inverted <> polarity (motor (floating normal 40 idle)) /\
  exists r s',
    polarity_store LP64 streq "inverted" 8 (floating normal 40 idle)
    = Some (r, s') /\
    polarity (motor s') = inverted /\ position (motor s') = 40.
Proof.
  split; [reflexivity |]. split; [discriminate |].
  destruct (polarity_store_switches LP64 pwm streq (floating normal 40 idle)
              "inverted" 8 inverted "" eq_refl ltac:(discriminate))
    as (r & s' & E & Hpol & Hpos & _).
  exists r, s'. repeat split; assumption.
Defined.

Lemma reachable_pulses_valid_witness :
  reachable ILP32 read_decimal read_unsigned streq 30 register_ok registered /\
  min_pulse_ms (motor registered) < mid_pulse_ms (motor registered)
  < max_pulse_ms (motor registered).
Proof.
  split; [exact registered_reachable |].
  apply (reachable_pulses_valid ILP32 pwm read_decimal read_unsigned streq 30
           register_ok registered registered_reachable).
Defined.

Lemma reachable_never_traps_witness :
  reachable ILP32 read_decimal read_unsigned streq 30 register_ok registered /\
  exists r s',
    serve ILP32 read_decimal read_unsigned streq 30 (ReadPosition "") registered
    = Some (r, s').
Proof.
  split; [exact registered_reachable |].
  destruct (reachable_never_traps ILP32 pwm read_decimal read_unsigned streq 30
              register_ok registered (ReadPosition "") registered_reachable)
    as (r & s' & E & _).
  exists r, s'. exact E.
Defined.

Lemma rate_pass_through_witness :
  get_rate (ops (motor (running normal 0 idle))) = None /\
  set_rate (ops (motor (running normal 0 idle))) = None /\
  rate_show "" (running normal 0 idle)
  = Some ((- ENOSYS, ""%string), running normal 0 idle) /\
  rate_store read_unsigned "fast" 4 (running normal 0 idle)
  = Some (- ENOSYS, running normal 0 idle).
Proof.
  split; [reflexivity |]. split; [reflexivity |].
  destruct (rate_pass_through pwm read_unsigned (running normal 0 idle)
              "" 4) as (Hshow & _).
  destruct (rate_pass_through pwm read_unsigned (running normal 0 idle)
              "fast" 4) as (_ & Hstore & _).
  split; [apply Hshow; reflexivity | apply Hstore; reflexivity].
Defined.

Lemma name_show_truncates_witness :
  0 < 5 /\
  exists stored,
    name_show 5 "" (running normal 0 idle)
    = Some ((10, stored), running normal 0 idle) /\
    strlen stored = 4.
Proof.
  split; [lia |].
  destruct (name_show_truncates pwm 5 (running normal 0 idle) "" ltac:(lia))
    as (stored & stored' & E & _ & _ & _ & L & _).
  exists stored. split; [exact E | exact L].
Defined.

Lemma pulse_store_then_show_witness :
  read_unsigned "650" = Some 650 /\ 300 <= 650 <= 700 /\
  exists s',
    min_pulse_ms_store read_unsigned "650" 3 (running normal 0 idle)
    = Some (3, s') /\
    min_pulse_ms_show "" s'
    = Some ((strlen (sprintf_d 650), sprintf_d 650), s').
Proof.
  split; [reflexivity |]. split; [lia |].
  destruct (pulse_store_then_show pwm read_unsigned 30
              (running normal 0 idle) 3 "") as (Hmin & _).
  apply (Hmin "650"%string 650); [reflexivity | lia].
Defined.

Lemma inverted_is_negated_witness :
  command (motor (running normal 0 idle)) = SERVO_MOTOR_COMMAND_RUN /\
  INT_MIN < 40 <= INT_MAX /\
  exists pulse,
    servo_motor_class_set_position ILP32 40 inverted (running normal 0 idle)
    = Some (driver_answer (running normal 0 idle) pulse,
            after_set_position (recorded (running normal 0 idle) 40 inverted)
                               pulse) /\
    servo_motor_class_set_position ILP32 (- 40) normal (running normal 0 idle)
    = Some (driver_answer (running normal 0 idle) pulse,
            after_set_position (recorded (running normal 0 idle) (- 40) normal)
                               pulse).
Proof.
  assert (Hp : INT_MIN < 40 <= INT_MAX) by (unfold INT_MIN, INT_MAX; lia).
  split; [reflexivity |]. split; [exact Hp |].
  apply (inverted_is_negated ILP32 pwm (running normal 0 idle) 40 eq_refl Hp).
Defined.

End MoreExamples.
